(** * ros2_serial_bridge: startup negotiation, reader loop and teardown

    A shallow embedding of [ros2_to_serial_bridge_main.cpp]: the class
    [ROS2SerialBridge] with its constructor, [parse_node_parameters_for_topics],
    [dynamically_get_serial_mapping], [read_thread_func] and its destructor.

    The transporter, the clock, the node parameters and the message codecs
    are external to that file.  The first three are modelled as scripts (what
    each successive call returns), the codecs as a type class; the calls the
    bridge makes on them (writes, reads, dispatches, teardown steps) are
    recorded in a trace. *)

From Stdlib Require Import ZArith Lia Ascii.
From stdpp Require Import base option list strings gmap fin_maps.

Local Open Scope Z_scope.

(** ** Data model *)

(** [topic_id_size_t] is an unsigned 8-bit integer: a [Z] with the wrap-around
    of [static_cast<topic_id_size_t>] written out. *)
Definition topic_id_size_t_max : Z := 256.

Definition static_cast_topic_id (x : Z) : Z := x `mod` topic_id_size_t_max.

(** [uint64_t] wrap-around, as used by the millisecond counter [diff_ms]. *)
Definition uint64_modulus : Z := 2 ^ 64.

Definition to_uint64 (x : Z) : Z := x `mod` uint64_modulus.

(** [TopicMapping::Direction]. *)
Inductive Direction : Type :=
  | UNKNOWN
  | SERIAL_TO_ROS2
  | ROS2_TO_SERIAL.

#[global] Instance Direction_eq_dec : EqDecision Direction.
Proof. solve_decision. Defined.

(** Modelled from the spec: the struct [TopicMapping] is declared in the
    generated header [ros2_topics.hpp], which is not part of the sources at
    hand.  Its three fields are the ones the spec lists and the bridge
    assigns: the serial id, the type name and the direction. *)
Record TopicMapping : Type := mkTopicMapping {
  serial_mapping : Z;
  type : string;
  direction : Direction
}.

#[global] Instance TopicMapping_eq_dec : EqDecision TopicMapping.
Proof. solve_decision. Defined.

(** [TopicMapping()]: serial id 0, no type name, direction [UNKNOWN], which
    is also what the static parser starts a direction from. *)
Definition TopicMapping_default : TopicMapping :=
  {| serial_mapping := 0; type := ""; direction := UNKNOWN |}.

Definition set_serial_mapping (v : Z) (t : TopicMapping) : TopicMapping :=
  {| serial_mapping := v; type := type t; direction := direction t |}.

Definition set_type (v : string) (t : TopicMapping) : TopicMapping :=
  {| serial_mapping := serial_mapping t; type := v; direction := direction t |}.

Definition set_direction (v : Direction) (t : TopicMapping) : TopicMapping :=
  {| serial_mapping := serial_mapping t; type := type t; direction := v |}.

(** The message [ros2_serial_msgs::msg::SerialMapping]: four parallel
    vectors. *)
Record SerialMapping : Type := mkSerialMapping {
  topic_names : list string;
  serial_mappings : list Z;
  types : list string;
  directions : list Z
}.

(** The [std::runtime_error]s of the file, one constructor per throw site. *)
Inductive runtime_error : Type :=
  | NoDevice
  | NoSerialProtocol
  | NoDynamicSerialMapping
  | NoBaudrate
  | NoReadPollMs
  | NoRingBufferSize
  | TransporterInitFailed
  | InvalidDotPosition
  | InvalidSecondDotPosition
  | InvalidDirectionString
  | InvalidParameterName
  | ParameterTypeMismatch
  | FailedToWriteDynamicMessage
  | NotEnoughMemoryForDeserialization
  | NoResponseToDynamicRequest
  | SizesDiffer
  | UnknownDirectionCode.

#[global] Instance runtime_error_eq_dec : EqDecision runtime_error.
Proof. solve_decision. Defined.

(** Outcome of a call: a value, an exception, or a script of the environment
    that ran out before the call came to an end ([Starved]); [Undefined]
    stands for a vector indexed out of range. *)
Inductive result (A : Type) : Type :=
  | Return (a : A)
  | Throw (e : runtime_error)
  | Starved
  | Undefined.

Arguments Return {A} a.
Arguments Throw {A} e.
Arguments Starved {A}.
Arguments Undefined {A}.

#[global] Instance result_ret : MRet result := fun A a => Return a.

#[global] Instance result_bind : MBind result := fun A B k r =>
  match r with
  | Return a => k a
  | Throw e => Throw e
  | Starved => Starved
  | Undefined => Undefined
  end.

#[global] Instance result_fmap : FMap result := fun A B f r =>
  match r with
  | Return a => Return (f a)
  | Throw e => Throw e
  | Starved => Starved
  | Undefined => Undefined
  end.

(** The serial id of an entry fits [topic_id_size_t]. *)
Definition in_topic_id_range (tm : TopicMapping) : Prop :=
  0 ≤ serial_mapping tm < topic_id_size_t_max.

(** The table type of the bridge, [std::map<std::string, TopicMapping>]. *)
Abbreviation table := (gmap string TopicMapping).

(** [tbl[name]]: the entry is default-constructed when absent. *)
Definition map_index (name : string) (tbl : table) : table :=
  match tbl !! name with
  | Some _ => tbl
  | None => <[name := TopicMapping_default]> tbl
  end.

(** [tbl[name].field = v], written as an update [f] of the entry. *)
Definition map_assign (name : string) (f : TopicMapping -> TopicMapping)
    (tbl : table) : table :=
  alter f name (map_index name tbl).

(** The entries a call hands to its caller: those of the returned table, and
    none when the call does not return. *)
Definition produced_entries (r : result table) : table :=
  match r with
  | Return tbl => tbl
  | _ => ∅
  end.

(** ** The environment: transporter, clock, type support *)

(** What one call of [transporter_->read(&topic_ID, buffer, BUFFER_SIZE)]
    yields: the returned length, and the topic and buffer contents it wrote. *)
Record ReadResult : Type := mkReadResult {
  rd_length : Z;
  rd_topic_ID : Z;
  rd_data : list Byte.byte
}.

(** The first [length] bytes of the buffer, as wrapped by [FastBuffer] and as
    handed to [dispatch]. *)
Definition rd_payload (r : ReadResult) : list Byte.byte :=
  take (Z.to_nat (rd_length r)) (rd_data r).

(** Calls that leave the bridge, in the order they are made. *)
Inductive Event : Type :=
  | EvInit
  | EvWrite (topic_ID : Z) (payload : list Byte.byte)
  | EvRead (r : ReadResult)
  | EvDispatch (topic_ID : Z) (payload : list Byte.byte)
  | EvSetValue
  | EvJoin
  | EvClose.

Definition is_write (e : Event) : bool :=
  match e with EvWrite _ _ => true | _ => false end.

(** A computation with the trace it leaves behind. *)
Record traced (A : Type) : Type := mkTraced {
  events : list Event;
  outcome : result A
}.

Arguments mkTraced {A} events outcome.
Arguments events {A} t.
Arguments outcome {A} t.

#[global] Instance traced_ret : MRet traced := fun A a => mkTraced [] (Return a).

#[global] Instance traced_bind : MBind traced := fun A B k t =>
  match outcome t with
  | Return a => mkTraced (events t ++ events (k a)) (outcome (k a))
  | Throw e => mkTraced (events t) (Throw e)
  | Starved => mkTraced (events t) Starved
  | Undefined => mkTraced (events t) Undefined
  end.

Definition emit (e : Event) : traced unit := mkTraced [e] (Return ()).

Definition throw {A : Type} (e : runtime_error) : traced A := mkTraced [] (Throw e).

Definition lift {A : Type} (r : result A) : traced A := mkTraced [] r.

(** The generated type support of the two messages the negotiation uses.
    It is external to the bridge: the constants of [SerialMapping.msg], the
    bytes [cdr_serialize] produces for a [std_msgs::msg::Empty], and
    [cdr_deserialize] for a [SerialMapping], where [None] stands for a
    [NotEnoughMemoryException]. *)
Class TypeSupport : Type := {
  SERIALTOROS2 : Z;
  ROS2TOSERIAL : Z;
  cdr_serialize_Empty : list Byte.byte;
  cdr_deserialize_SerialMapping : list Byte.byte -> option SerialMapping
}.

(** One turn of the wait loop as the environment answers it: the result of
    the read, and the reading of [system_clock::now()] that follows it, a
    time point counted in ticks of the clock. *)
Record Poll : Type := mkPoll {
  poll_read : ReadResult;
  poll_now : Z
}.

(** The environment of one negotiation: the result of the write, the clock
    reading [start] (in ticks, as every reading), and the turns of the wait
    loop. *)
Record NegotiationEnv : Type := mkNegotiationEnv {
  write_result : Z;
  clock_start : Z;
  polls : list Poll
}.

(** ** Building the table from a negotiated response *)

Section Negotiation.

Context `{TypeSupport}.

(** The body of the [for] loop at index [i]. *)
Definition build_step (msg : SerialMapping) (i : nat) (tbl : table)
    : result table :=
  match topic_names msg !! i, serial_mappings msg !! i,
        types msg !! i, directions msg !! i with
  | Some topic_name, Some sm, Some ty, Some dir =>
      let tbl := <[topic_name := TopicMapping_default]> tbl in
      let tbl := map_assign topic_name (set_serial_mapping sm) tbl in
      let tbl := map_assign topic_name (set_type ty) tbl in
      if dir =? SERIALTOROS2 then
        Return (map_assign topic_name (set_direction SERIAL_TO_ROS2) tbl)
      else if dir =? ROS2TOSERIAL then
        Return (map_assign topic_name (set_direction ROS2_TO_SERIAL) tbl)
      else Throw UnknownDirectionCode
  | _, _, _, _ => Undefined
  end.

(** [for (i = ...; i < size; ++i)], with [n] the iterations left. *)
Fixpoint build_loop (msg : SerialMapping) (n i : nat) (tbl : table)
    : result table :=
  match n with
  | O => Return tbl
  | S n' => tbl' ← build_step msg i tbl; build_loop msg n' (S i) tbl'
  end.

Definition sizes_differ (msg : SerialMapping) : bool :=
  negb (length (topic_names msg) =? length (serial_mappings msg))%nat
  || negb (length (topic_names msg) =? length (types msg))%nat
  || negb (length (topic_names msg) =? length (directions msg))%nat.

(** The part of [dynamically_get_serial_mapping] after the wait loop. *)
Definition build_table (msg : SerialMapping) : result table :=
  if sizes_differ msg then Throw SizesDiffer
  else build_loop msg (length (topic_names msg)) 0 ∅.

(** ** The wait loop *)

(** The frame the loop is waiting for: a positive length on topic 1. *)
Definition is_response (r : ReadResult) : bool :=
  (0 <? rd_length r) && (rd_topic_ID r =? 1).

(** The ticks of [std::chrono::system_clock] in a millisecond: the clock of
    libstdc++ counts nanoseconds. *)
Definition system_clock_ticks_per_ms : Z := 1000000.

(** [duration_cast<std::chrono::milliseconds>(now - start)], stored in a
    [duration<uint64_t, std::milli>]: the difference of the two time points
    in ticks, cut to whole milliseconds towards zero, then converted to the
    unsigned counter. *)
Definition elapsed_ms (start now : Z) : Z :=
  to_uint64 (Z.quot (now - start) system_clock_ticks_per_ms).

(** [diff_ms] after a turn: recomputed from the clock only if
    [wait_ms > 0]. *)
Definition next_diff_ms (wait_ms start diff_ms : Z) (p : Poll) : Z :=
  if 0 <? wait_ms then elapsed_ms start (poll_now p) else diff_ms.

(** The [do ... while (diff_ms.count() < wait_ms)] loop.  It returns
    [Some msg] when it left through [break] with [got_response] set, and
    [None] when the loop condition ended it. *)
Fixpoint wait_loop (wait_ms start diff_ms : Z) (script : list Poll)
    : traced (option SerialMapping) :=
  match script with
  | [] => lift Starved
  | p :: script' =>
      emit (EvRead (poll_read p));;
      if is_response (poll_read p) then
        match cdr_deserialize_SerialMapping (rd_payload (poll_read p)) with
        | None => throw NotEnoughMemoryForDeserialization
        | Some msg => mret (Some msg)
        end
      else
        let diff_ms := next_diff_ms wait_ms start diff_ms p in
        if diff_ms <? wait_ms then wait_loop wait_ms start diff_ms script'
        else mret None
  end.

Definition dynamically_get_serial_mapping (wait_ms : Z) (env : NegotiationEnv)
    : traced table :=
  emit (EvWrite 0 cdr_serialize_Empty);;
  (if write_result env <? 0 then throw FailedToWriteDynamicMessage
   else mret ());;
  got ← wait_loop wait_ms (clock_start env) 0 (polls env);
  match got with
  | None => throw NoResponseToDynamicRequest
  | Some serial_mapping_msg => lift (build_table serial_mapping_msg)
  end.

(** A turn after which the loop goes round again: no response was read
    and the loop condition holds. *)
Definition turn_continues (wait_ms start : Z) (p : Poll) : bool :=
  negb (is_response (poll_read p))
  && (next_diff_ms wait_ms start 0 p <? wait_ms).

(** A turn at which the loop condition ends the wait: no response was read
    and the deadline has passed. *)
Definition turn_expires (wait_ms start : Z) (p : Poll) : bool :=
  negb (is_response (poll_read p))
  && negb (next_diff_ms wait_ms start 0 p <? wait_ms).

(** A direction code the loop knows. *)
Definition known_code (code : Z) : Prop :=
  code = SERIALTOROS2 ∨ code = ROS2TOSERIAL.

(** The direction the loop stores for a direction code. *)
Definition translated (code : Z) (dir : Direction) : Prop :=
  (code = SERIALTOROS2 ∧ dir = SERIAL_TO_ROS2)
  ∨ (code ≠ SERIALTOROS2 ∧ code = ROS2TOSERIAL ∧ dir = ROS2_TO_SERIAL).

(** The entry [tm] is the one the response lists for [name] at index [k]. *)
Definition listed_at (msg : SerialMapping) (k : nat) (name : string)
    (tm : TopicMapping) : Prop :=
  topic_names msg !! k = Some name
  ∧ serial_mappings msg !! k = Some (serial_mapping tm)
  ∧ types msg !! k = Some (type tm)
  ∧ ∃ code, directions msg !! k = Some code ∧ translated code (direction tm).

End Negotiation.

(** ** The reader thread *)

Inductive future_status : Type :=
  | ready
  | timeout
  | deferred.

Definition is_timeout (status : future_status) : bool :=
  match status with timeout => true | _ => false end.

(** One iteration of the [do ... while] of [read_thread_func]: the read, and
    the dispatch when the length is positive. *)
Definition read_iteration (r : ReadResult) : list Event :=
  EvRead r ::
  (if 0 <? rd_length r then [EvDispatch (rd_topic_ID r) (rd_payload r)] else []).

(** [read_thread_func], against a script of what each iteration's read and
    each [local_future.wait_for] return. *)
Fixpoint read_thread_func (script : list (ReadResult * future_status))
    : traced unit :=
  match script with
  | [] => lift Starved
  | (r, status) :: script' =>
      mkTraced (read_iteration r) (Return ());;
      match status with
      | timeout => read_thread_func script'
      | _ => mret ()
      end
  end.

(** ** Static configuration: the node's parameters *)

(** The value of a node parameter ([rclcpp::ParameterValue]), as far as the
    bridge looks at it. *)
Inductive ParameterValue : Type :=
  | PBool (b : bool)
  | PInteger (z : Z)
  | PString (s : string)
  | POther.

(** The parameters of the node, in the order [list_parameters] names them. *)
Abbreviation parameters := (list (string * ParameterValue)).

Fixpoint get_parameter (store : parameters) (name : string)
    : option ParameterValue :=
  match store with
  | [] => None
  | (n, v) :: store' =>
      if decide (n = name) then Some v else get_parameter store' name
  end.

(** [get_parameter(name)] for a name that [list_parameters] has just given;
    a name that is not in the store does not occur there. *)
Definition get_declared_parameter (store : parameters) (name : string)
    : result ParameterValue :=
  match get_parameter store name with
  | Some v => Return v
  | None => Undefined
  end.

(** [get_value<int64_t>()] and [get_value<std::string>()]: a value of another
    type is an exception. *)
Definition get_value_int64 (v : ParameterValue) : result Z :=
  match v with
  | PInteger z => Return z
  | _ => Throw ParameterTypeMismatch
  end.

Definition get_value_string (v : ParameterValue) : result string :=
  match v with
  | PString s => Return s
  | _ => Throw ParameterTypeMismatch
  end.

(** [std::count(name.begin(), name.end(), c)]. *)
Fixpoint count_char (c : ascii) (s : string) : nat :=
  match s with
  | EmptyString => O
  | String a s' => ((if decide (a = c) then 1 else 0) + count_char c s')%nat
  end.

(** [s.find_first_of(c, pos)], with [None] for [npos]. *)
Fixpoint find_first_of (c : ascii) (s : string) (pos : nat) : option nat :=
  match s with
  | EmptyString => None
  | String a s' =>
      match pos with
      | O => if decide (a = c) then Some O else S <$> find_first_of c s' O
      | S pos' => S <$> find_first_of c s' pos'
      end
  end.

(** [s.substr(pos, len)] for [pos <= s.length()], which holds at each of the
    three call sites; the count is clamped to the end of the string. *)
Definition substr (s : string) (pos len : nat) : string :=
  String.substring pos len s.

Definition dot : ascii := "."%char.

(** The body of the loop over the parameter names; [continue] returns the
    table unchanged. *)
Definition parse_parameter (store : parameters) (name : string) (tbl : table)
    : result table :=
  if negb (count_char dot name =? 2)%nat then Return tbl
  else
    match find_first_of dot name 0 with
    | None => Throw InvalidDotPosition
    | Some first_dot_pos =>
        let topics := substr name 0 first_dot_pos in
        if negb (bool_decide (topics = "topics")) then Return tbl
        else if (first_dot_pos =? String.length name)%nat then Return tbl
        else
          match find_first_of dot name (first_dot_pos + 1) with
          | None => Throw InvalidSecondDotPosition
          | Some second_dot_pos =>
              let topic_name :=
                substr name (first_dot_pos + 1)
                       (second_dot_pos - first_dot_pos - 1) in
              if (second_dot_pos =? String.length name)%nat then Return tbl
              else
                let param_name :=
                  substr name (second_dot_pos + 1)
                         (String.length name - String.length topic_name
                          - String.length topics) in
                let tbl :=
                  match tbl !! topic_name with
                  | None => <[topic_name := TopicMapping_default]> tbl
                  | Some _ => tbl
                  end in
                if bool_decide (param_name = "serial_mapping") then
                  value ← get_declared_parameter store name;
                  serial_mapping ← get_value_int64 value;
                  Return (map_assign topic_name
                            (set_serial_mapping
                               (static_cast_topic_id serial_mapping)) tbl)
                else if bool_decide (param_name = "type") then
                  value ← get_declared_parameter store name;
                  ty ← get_value_string value;
                  Return (map_assign topic_name (set_type ty) tbl)
                else if bool_decide (param_name = "direction") then
                  value ← get_declared_parameter store name;
                  dirstring ← get_value_string value;
                  if bool_decide (dirstring = "SerialToROS2") then
                    Return (map_assign topic_name
                              (set_direction SERIAL_TO_ROS2) tbl)
                  else if bool_decide (dirstring = "ROS2ToSerial") then
                    Return (map_assign topic_name
                              (set_direction ROS2_TO_SERIAL) tbl)
                  else Throw InvalidDirectionString
                else Throw InvalidParameterName
          end
    end.

Fixpoint parse_names (store : parameters) (names : list string) (tbl : table)
    : result table :=
  match names with
  | [] => Return tbl
  | name :: names' =>
      tbl' ← parse_parameter store name tbl; parse_names store names' tbl'
  end.

Definition parse_node_parameters_for_topics (store : parameters)
    : result table :=
  parse_names store (fst <$> store) ∅.

(** ** The constructor *)

(** [get_parameter(name, value)]: [None] when the parameter is not set. *)
Definition get_parameter_string (store : parameters) (name : string)
    : result (option string) :=
  match get_parameter store name with
  | None => Return None
  | Some v => s ← get_value_string v; Return (Some s)
  end.

Definition get_parameter_int (store : parameters) (name : string)
    : result (option Z) :=
  match get_parameter store name with
  | None => Return None
  | Some v => z ← get_value_int64 v; Return (Some z)
  end.

(** [if (!get_parameter(...)) throw ...]. *)
Definition require {A : Type} (r : result (option A)) (e : runtime_error)
    : traced A :=
  o ← lift r;
  match o with
  | None => throw e
  | Some a => mret a
  end.

(** What the constructor meets: the parameters of the node, the result of
    [transporter_->init()], and the environment of the negotiation. *)
Record StartupEnv : Type := mkStartupEnv {
  node_parameters : parameters;
  init_result : Z;
  negotiation : NegotiationEnv
}.

(** The bridge once constructed, as far as the table goes: the table is
    handed to [ROS2Topics], whose code is generated and not at hand. *)
Record ROS2SerialBridge : Type := mkROS2SerialBridge {
  topic_names_and_serialization : table
}.

Section Constructor.

Context `{TypeSupport}.

Definition ROS2SerialBridge_new (env : StartupEnv) : traced ROS2SerialBridge :=
  let store := node_parameters env in
  device ← require (get_parameter_string store "device") NoDevice;
  serial_protocol ←
    require (get_parameter_string store "serial_protocol") NoSerialProtocol;
  dynamic_serial_mapping_ms ←
    require (get_parameter_int store "dynamic_serial_mapping_ms")
            NoDynamicSerialMapping;
  baudrate ← require (get_parameter_int store "baudrate") NoBaudrate;
  read_poll_ms ← require (get_parameter_int store "read_poll_ms") NoReadPollMs;
  ring_buffer_size ←
    require (get_parameter_int store "ring_buffer_size") NoRingBufferSize;
  emit EvInit;;
  (if init_result env <? 0 then throw TransporterInitFailed else mret ());;
  (* a positive [int64_t] converts to the same [uint64_t wait_ms] *)
  tbl ← (if 0 <? dynamic_serial_mapping_ms then
           dynamically_get_serial_mapping dynamic_serial_mapping_ms
                                          (negotiation env)
         else lift (parse_node_parameters_for_topics store));
  mret {| topic_names_and_serialization := tbl |}.

End Constructor.

(** ** Teardown: the destructor against the running reader thread *)

(** Where the owner stands in [~ROS2SerialBridge]. *)
Inductive owner_pc : Type :=
  | BeforeSetValue
  | BeforeJoin
  | BeforeClose
  | Destroyed.

(** Where the reader thread stands in its loop. *)
Inductive reader_pc : Type :=
  | AtRead
  | AtWaitFor
  | ThreadExited.

Record System : Type := mkSystem {
  owner : owner_pc;
  reader : reader_pc;
  exit_signal : bool;
  transporter_closed : bool;
  sys_trace : list Event
}.

(** The three statements of the destructor, one per turn.  [join] returns
    only once the thread has left [read_thread_func]; until then the owner
    stays where it is. *)
Definition owner_step (s : System) : System :=
  match owner s with
  | BeforeSetValue =>
      {| owner := BeforeJoin; reader := reader s; exit_signal := true;
         transporter_closed := transporter_closed s;
         sys_trace := sys_trace s ++ [EvSetValue] |}
  | BeforeJoin =>
      match reader s with
      | ThreadExited =>
          {| owner := BeforeClose; reader := reader s;
             exit_signal := exit_signal s;
             transporter_closed := transporter_closed s;
             sys_trace := sys_trace s ++ [EvJoin] |}
      | _ => s
      end
  | BeforeClose =>
      {| owner := Destroyed; reader := reader s; exit_signal := exit_signal s;
         transporter_closed := true;
         sys_trace := sys_trace s ++ [EvClose] |}
  | Destroyed => s
  end.

(** The future is [ready] once the promise has been given its value. *)
Definition wait_for (s : System) : future_status :=
  if exit_signal s then ready else timeout.

(** One turn of the reader thread: the read with its dispatch, or the test
    of the future that follows it. *)
Definition reader_step (r : ReadResult) (s : System) : System :=
  match reader s with
  | AtRead =>
      {| owner := owner s; reader := AtWaitFor; exit_signal := exit_signal s;
         transporter_closed := transporter_closed s;
         sys_trace := sys_trace s ++ read_iteration r |}
  | AtWaitFor =>
      {| owner := owner s;
         reader := match wait_for s with timeout => AtRead | _ => ThreadExited end;
         exit_signal := exit_signal s;
         transporter_closed := transporter_closed s;
         sys_trace := sys_trace s |}
  | ThreadExited => s
  end.

(** Whose turn it is; a reader turn carries what its read would return. *)
Inductive Turn : Type :=
  | OwnerTurn
  | ReaderTurn (r : ReadResult).

Definition step (s : System) (t : Turn) : System :=
  match t with
  | OwnerTurn => owner_step s
  | ReaderTurn r => reader_step r s
  end.

Definition run (schedule : list Turn) (s : System) : System :=
  foldl step s schedule.

(** The bridge at the moment its destructor is entered: the reader thread is
    somewhere in its loop and has left the trace [tr] so far. *)
Definition at_destruction (pc : reader_pc) (tr : list Event) : System :=
  {| owner := BeforeSetValue; reader := pc; exit_signal := false;
     transporter_closed := false; sys_trace := tr |}.

Definition is_teardown (e : Event) : bool :=
  match e with
  | EvSetValue | EvJoin | EvClose => true
  | _ => false
  end.

(** What holds of the system at each point of the destructor: the teardown
    calls made so far, and what they have established. *)
Definition teardown_inv (s : System) : Prop :=
  match owner s with
  | BeforeSetValue =>
      exit_signal s = false ∧ transporter_closed s = false
      ∧ filter (λ e, is_teardown e = true) (sys_trace s) = []
  | BeforeJoin =>
      exit_signal s = true ∧ transporter_closed s = false
      ∧ filter (λ e, is_teardown e = true) (sys_trace s) = [EvSetValue]
  | BeforeClose =>
      exit_signal s = true ∧ transporter_closed s = false
      ∧ reader s = ThreadExited
      ∧ filter (λ e, is_teardown e = true) (sys_trace s) = [EvSetValue; EvJoin]
  | Destroyed =>
      exit_signal s = true ∧ transporter_closed s = true
      ∧ reader s = ThreadExited
      ∧ ∃ tr, sys_trace s = tr ++ [EvClose]
              ∧ filter (λ e, is_teardown e = true) tr = [EvSetValue; EvJoin]
  end.

(** A schedule that brings any destructor to its end: the owner moves, the
    reader gets two turns to leave its loop, the owner moves twice. *)
Definition finishing_schedule (r : ReadResult) : list Turn :=
  [OwnerTurn; ReaderTurn r; ReaderTurn r; OwnerTurn; OwnerTurn].

(** ** The hand-over of the table *)

(** Modelled from the spec: the errors of the constructor of [ROS2Topics],
    to which the bridge hands its table.  The generated header
    [ros2_topics.hpp] that defines the class is not among the sources; only
    the call of its constructor in the constructor of the bridge is.  The
    spec has a mapping table in use free of entries of direction [Unknown]
    (the spec: Unknown is invalid and rejected before use) and of the
    serial ids 0 and 1 (the spec: they are reserved for the negotiation
    protocol itself and must not appear in the application mapping table):
    a table with such an entry is refused, and the error names a topic at
    fault. *)
Inductive ROS2Topics_error : Type :=
  | UnknownDirectionInTable (topic_name : string)
  | ReservedSerialIdInTable (topic_name : string).

(** Modelled from the spec: what the missing constructor of [ROS2Topics]
    finds wrong with one entry of the table: a direction [Unknown], or one
    of the two reserved serial ids. *)
Definition entry_fault (entry : string * TopicMapping)
    : option ROS2Topics_error :=
  if bool_decide (direction entry.2 = UNKNOWN)
  then Some (UnknownDirectionInTable entry.1)
  else if bool_decide (serial_mapping entry.2 = 0 ∨ serial_mapping entry.2 = 1)
  then Some (ReservedSerialIdInTable entry.1)
  else None.

(** Modelled from the spec: the missing constructor of [ROS2Topics] on the
    table it is given.  [None] when the table is taken over, the fault of
    an entry when it is refused. *)
Definition ROS2Topics_new (tbl : table) : option ROS2Topics_error :=
  head (omap entry_fault (map_to_list tbl)).

(** ** The static parser, name by name *)

(** The name of the parameter that holds the field [param_name] of the topic
    [topic_name] in the YAML layout the parser expects. *)
Definition topic_parameter (topic_name param_name : string) : string :=
  "topics." +:+ topic_name +:+ "." +:+ param_name.

(** The part of the loop body that follows the splitting of the name, taken
    by itself: the entry of the topic is created when it is missing, and the
    field that the parameter names is assigned. *)
Definition assign_topic_parameter (store : parameters)
    (name topic_name param_name : string) (tbl : table) : result table :=
  let tbl :=
    match tbl !! topic_name with
    | None => <[topic_name := TopicMapping_default]> tbl
    | Some _ => tbl
    end in
  if bool_decide (param_name = "serial_mapping") then
    value ← get_declared_parameter store name;
    serial_mapping ← get_value_int64 value;
    Return (map_assign topic_name
              (set_serial_mapping (static_cast_topic_id serial_mapping)) tbl)
  else if bool_decide (param_name = "type") then
    value ← get_declared_parameter store name;
    ty ← get_value_string value;
    Return (map_assign topic_name (set_type ty) tbl)
  else if bool_decide (param_name = "direction") then
    value ← get_declared_parameter store name;
    dirstring ← get_value_string value;
    if bool_decide (dirstring = "SerialToROS2") then
      Return (map_assign topic_name (set_direction SERIAL_TO_ROS2) tbl)
    else if bool_decide (dirstring = "ROS2ToSerial") then
      Return (map_assign topic_name (set_direction ROS2_TO_SERIAL) tbl)
    else Throw InvalidDirectionString
  else Throw InvalidParameterName.

(** The entry of a topic before an assignment: the one the table holds, or a
    default-constructed one. *)
Definition entry_or_default (tbl : table) (topic_name : string) : TopicMapping :=
  default TopicMapping_default (tbl !! topic_name).

(** The three fields the parser knows. *)
Definition topic_fields : list string := ["serial_mapping"; "type"; "direction"].

(** The entry that the parameters of a store describe for a topic: each
    field from the parameter named for it, and the field of a
    default-constructed entry where the store has no such parameter. *)
Definition static_entry (store : parameters) (topic_name : string)
    : TopicMapping :=
  {| serial_mapping :=
       match get_parameter store (topic_parameter topic_name "serial_mapping") with
       | Some (PInteger z) => static_cast_topic_id z
       | _ => 0
       end;
     type :=
       match get_parameter store (topic_parameter topic_name "type") with
       | Some (PString ty) => ty
       | _ => ""
       end;
     direction :=
       match get_parameter store (topic_parameter topic_name "direction") with
       | Some (PString dirstring) =>
           if bool_decide (dirstring = "SerialToROS2") then SERIAL_TO_ROS2
           else if bool_decide (dirstring = "ROS2ToSerial") then ROS2_TO_SERIAL
           else UNKNOWN
       | _ => UNKNOWN
       end |}.

(** The same entry while the loop is under way: only the fields whose
    parameter is among the names gone through are set. *)
Definition partial_entry (store : parameters) (seen : list string)
    (topic_name : string) : TopicMapping :=
  {| serial_mapping :=
       if bool_decide (topic_parameter topic_name "serial_mapping" ∈ seen)
       then serial_mapping (static_entry store topic_name) else 0;
     type :=
       if bool_decide (topic_parameter topic_name "type" ∈ seen)
       then type (static_entry store topic_name) else "";
     direction :=
       if bool_decide (topic_parameter topic_name "direction" ∈ seen)
       then direction (static_entry store topic_name) else UNKNOWN |}.

(** The table the loop has built after the names [seen]: the topics with a
    field among them, each with its partial entry. *)
Definition parsed_so_far (store : parameters) (seen : list string)
    (tbl : table) : Prop :=
  ∀ topic_name,
    (is_Some (tbl !! topic_name) ↔
     count_char dot topic_name = O
     ∧ ∃ field, field ∈ topic_fields
                ∧ topic_parameter topic_name field ∈ seen)
    ∧ (∀ tm, tbl !! topic_name = Some tm →
             tm = partial_entry store seen topic_name).

(** The six parameters the constructor asks for are set and of the right
    type, [dynamic_serial_mapping_ms] with the given value. *)
Definition configured (store : parameters) (dynamic_serial_mapping_ms : Z)
    : Prop :=
  (∃ device, get_parameter store "device" = Some (PString device))
  ∧ (∃ serial_protocol,
       get_parameter store "serial_protocol" = Some (PString serial_protocol))
  ∧ get_parameter store "dynamic_serial_mapping_ms"
    = Some (PInteger dynamic_serial_mapping_ms)
  ∧ (∃ baudrate, get_parameter store "baudrate" = Some (PInteger baudrate))
  ∧ (∃ read_poll_ms,
       get_parameter store "read_poll_ms" = Some (PInteger read_poll_ms))
  ∧ (∃ ring_buffer_size,
       get_parameter store "ring_buffer_size" = Some (PInteger ring_buffer_size)).

Section Startup_table.

Context `{TypeSupport}.

(** The table the bridge starts with: the constructor builds it from the
    negotiation or from the parameters and hands it to the constructor of
    [ROS2Topics] before anything uses it; an exception of either leaves no
    bridge, and no table. *)
Definition table_accepted_at_startup (env : StartupEnv) : option table :=
  match outcome (ROS2SerialBridge_new env) with
  | Return bridge =>
      match ROS2Topics_new (topic_names_and_serialization bridge) with
      | None => Some (topic_names_and_serialization bridge)
      | Some _ => None
      end
  | _ => None
  end.

End Startup_table.

(** ** The program: [main] *)

(** The calls of [main], in the order it makes them; the calls of the bridge
    it constructs are those of the constructor. *)
Inductive MainEvent : Type :=
  | MainRclInit
  | MainSignal
  | MainBridge (e : Event)
  | MainSpinSome
  | MainSleep
  | MainShutdown.

(** The two exceptions that leave [main] uncaught: they are raised after the
    [try] block, by the lookup of [write_sleep_ms]. *)
Inductive main_exception : Type :=
  | NoWriteSleepMs
  | WriteSleepMsTypeMismatch.

(** The three statements of [~ROS2SerialBridge], as the thread that destroys
    the bridge makes them. *)
Definition destructor_calls : list Event := [EvSetValue; EvJoin; EvClose].

(** How [main] ends: with an exit code, with an exception nobody catches, or
    not within the script ([MainStarved]); [MainUndefined] is the undefined
    behaviour of the constructor. *)
Inductive main_outcome : Type :=
  | Exit (code : Z)
  | Uncaught (e : main_exception)
  | MainStarved
  | MainUndefined.

(** What [main] meets: the environment of the constructor, and for each test
    of the [while] what [rclcpp::ok()] returns and whether [running] is still
    set (the signal handler clears it). *)
Record MainEnv : Type := mkMainEnv {
  startup : StartupEnv;
  loop_tests : list (bool * bool)
}.

(** [while (rclcpp::ok() && running != 0) { spin_some; sleep }]: the calls
    made, and whether the loop came to its end within the script. *)
Fixpoint spin_loop (tests : list (bool * bool)) : list MainEvent * bool :=
  match tests with
  | [] => ([], false)
  | (ok, running) :: tests' =>
      if ok && running then
        let '(tr, finished) := spin_loop tests' in
        (MainSpinSome :: MainSleep :: tr, finished)
      else ([], true)
  end.

Section Main.

Context `{TypeSupport}.

(** [return 0] ends the life of the local [node], the one owner of the
    bridge: its destructor runs then, after [rclcpp::shutdown].  On the other
    ways out of [main] no bridge is destroyed: none was constructed when the
    constructor threw, and an uncaught exception ends the program. *)
Definition main (env : MainEnv) : list MainEvent * main_outcome :=
  let node := ROS2SerialBridge_new (startup env) in
  let tr := [MainRclInit; MainSignal] ++ (MainBridge <$> events node) in
  match outcome node with
  | Throw _ => (tr, Exit 1)
  | Starved => (tr, MainStarved)
  | Undefined => (tr, MainUndefined)
  | Return _ =>
      match get_parameter_int (node_parameters (startup env)) "write_sleep_ms" with
      | Return (Some write_sleep_ms) =>
          let '(spins, finished) := spin_loop (loop_tests env) in
          if finished then
            (tr ++ spins ++ [MainShutdown] ++ (MainBridge <$> destructor_calls),
             Exit 0)
          else (tr ++ spins, MainStarved)
      | Return None => (tr, Uncaught NoWriteSleepMs)
      | _ => (tr, Uncaught WriteSleepMsTypeMismatch)
      end
  end.

End Main.

(** ** Measuring the shutdown *)

Definition is_read_event (e : Event) : bool :=
  match e with EvRead _ => true | _ => false end.

(** The part of a trace that follows the first [set_value]; empty when the
    trace has none. *)
Fixpoint after_signal (tr : list Event) : list Event :=
  match tr with
  | [] => []
  | EvSetValue :: tr' => tr'
  | _ :: tr' => after_signal tr'
  end.

(** The reads the transporter is asked for after the promise has been given
    its value. *)
Definition reads_after_signal (tr : list Event) : nat :=
  length (filter (λ e, is_read_event e = true) (after_signal tr)).

Definition has_signal (tr : list Event) : bool :=
  existsb (λ e, match e with EvSetValue => true | _ => false end) tr.

(** What the reader thread can still do once the signal is given: a thread
    about to read has not read since, and no thread reads more than once. *)
Definition shutdown_inv (s : System) : Prop :=
  match owner s with
  | BeforeSetValue => has_signal (sys_trace s) = false
  | _ =>
      has_signal (sys_trace s) = true ∧ exit_signal s = true
      ∧ match reader s with
        | AtRead => reads_after_signal (sys_trace s) = O
        | _ => (reads_after_signal (sys_trace s) ≤ 1)%nat
        end
  end.

(** ** Sample inputs *)

Module Samples.

Import Byte.

(** A response that gives the reserved id 0 to a topic. *)
Definition msg_reserved : SerialMapping :=
  {| topic_names := ["chatter"]; serial_mappings := [0];
     types := ["std_msgs/String"]; directions := [0] |}.

(** A response that lists ["chatter"] twice. *)
Definition msg_twice : SerialMapping :=
  {| topic_names := ["chatter"; "odom"; "chatter"];
     serial_mappings := [9; 5; 7];
     types := ["std_msgs/String"; "nav_msgs/Odometry"; "std_msgs/Empty"];
     directions := [0; 1; 1] |}.

(** A response whose [types] is one short. *)
Definition msg_short : SerialMapping :=
  {| topic_names := ["chatter"; "odom"]; serial_mappings := [9; 5];
     types := ["std_msgs/String"]; directions := [0; 1] |}.

(** A response with a direction code that is neither constant. *)
Definition msg_bad_direction : SerialMapping :=
  {| topic_names := ["chatter"; "odom"]; serial_mappings := [9; 5];
     types := ["std_msgs/String"; "nav_msgs/Odometry"];
     directions := [0; 2] |}.

(** A type support for the samples: the constants 0 and 1, an empty
    request of no bytes, and a codec that tells the sample responses apart
    by their first byte. *)
Definition sample_deserialize (bytes : list byte) : option SerialMapping :=
  match bytes with
  | x01 :: _ => Some msg_reserved
  | x02 :: _ => Some msg_twice
  | x03 :: _ => Some msg_short
  | x04 :: _ => Some msg_bad_direction
  | _ => None
  end.

Definition sample_type_support : TypeSupport :=
  {| SERIALTOROS2 := 0; ROS2TOSERIAL := 1; cdr_serialize_Empty := [];
     cdr_deserialize_SerialMapping := sample_deserialize |}.

(** Reads: nothing within the poll interval, an error, a frame on an
    application topic, and a frame on topic 1 with a given first byte. *)
Definition read_nothing : ReadResult :=
  {| rd_length := 0; rd_topic_ID := 0; rd_data := [] |}.

Definition read_error : ReadResult :=
  {| rd_length := -1; rd_topic_ID := 0; rd_data := [] |}.

Definition read_other_topic : ReadResult :=
  {| rd_length := 2; rd_topic_ID := 9; rd_data := [x68; x69] |}.

Definition read_response (b : byte) : ReadResult :=
  {| rd_length := 1; rd_topic_ID := 1; rd_data := [b] |}.

(** A negotiation started at clock reading 1 s that reads a frame on
    another topic after 10 ms and the response after 20 ms (readings in
    nanoseconds). *)
Definition env_answering (b : byte) : NegotiationEnv :=
  {| write_result := 0; clock_start := 1000000000;
     polls := [ {| poll_read := read_other_topic; poll_now := 1010000000 |};
                {| poll_read := read_response b; poll_now := 1020000000 |};
                {| poll_read := read_nothing; poll_now := 1030000000 |} ] |}.

(** A negotiation that reads nothing on topic 1 until 100 ms have gone. *)
Definition env_silent : NegotiationEnv :=
  {| write_result := 0; clock_start := 1000000000;
     polls := [ {| poll_read := read_nothing; poll_now := 1050000000 |};
                {| poll_read := read_other_topic; poll_now := 1100000000 |};
                {| poll_read := read_response x01; poll_now := 1150000000 |} ] |}.

(** Parameters of a node with one statically configured topic. *)
Definition store_static (dynamic_serial_mapping_ms : Z) : parameters :=
  [ ("baudrate", PInteger 115200);
    ("device", PString "/dev/ttyACM0");
    ("dynamic_serial_mapping_ms", PInteger dynamic_serial_mapping_ms);
    ("read_poll_ms", PInteger 100);
    ("ring_buffer_size", PInteger 8192);
    ("serial_protocol", PString "px4");
    ("topics.chatter.direction", PString "SerialToROS2");
    ("topics.chatter.serial_mapping", PInteger 1);
    ("topics.chatter.type", PString "std_msgs/String");
    ("write_sleep_ms", PInteger 4) ].

Definition startup_silent : StartupEnv :=
  {| node_parameters := store_static 100; init_result := 0;
     negotiation := env_silent |}.

Definition startup_static : StartupEnv :=
  {| node_parameters := store_static 0; init_result := 0;
     negotiation := env_silent |}.

End Samples.

(** ** More sample inputs *)

Module MoreSamples.

Import Byte.

(** A response without rows, and a type support whose codec reads it out of
    every frame. *)
Definition msg_empty : SerialMapping :=
  {| topic_names := []; serial_mappings := []; types := []; directions := [] |}.

Definition empty_type_support : TypeSupport :=
  {| SERIALTOROS2 := 0; ROS2TOSERIAL := 1; cdr_serialize_Empty := [];
     cdr_deserialize_SerialMapping := fun _ => Some msg_empty |}.

(** A type support whose codec writes one byte for an empty message. *)
Definition one_byte_type_support : TypeSupport :=
  {| SERIALTOROS2 := 0; ROS2TOSERIAL := 1; cdr_serialize_Empty := [x00];
     cdr_deserialize_SerialMapping := Samples.sample_deserialize |}.

(** A start-up with a positive time budget whose negotiation is answered
    with the response of the given first byte. *)
Definition startup_answering (b : byte) : StartupEnv :=
  {| node_parameters := Samples.store_static 100; init_result := 0;
     negotiation := Samples.env_answering b |}.

(** A negotiation whose response comes in 500 ms after the start. *)
Definition env_late : NegotiationEnv :=
  {| write_result := 0; clock_start := 1000000000;
     polls := [ {| poll_read := Samples.read_response x02; poll_now := 1500000000 |};
                {| poll_read := Samples.read_nothing; poll_now := 1600000000 |} ] |}.

(** A negotiation during which the clock is set back by ten seconds. *)
Definition env_clock_set_back : NegotiationEnv :=
  {| write_result := 0; clock_start := 20000000000;
     polls := [ {| poll_read := Samples.read_nothing; poll_now := 20010000000 |};
                {| poll_read := Samples.read_other_topic; poll_now := 10020000000 |};
                {| poll_read := Samples.read_response x02; poll_now := 10030000000 |} ] |}.

(** A store in which the topic [chatter] has a type only, next to a
    parameter outside the layout. *)
Definition store_incomplete : parameters :=
  [ ("topics.chatter.type", PString "std_msgs/String");
    ("use_sim_time", PBool false) ].

(** The parameters of one topic, in two orders. *)
Definition store_ordered : parameters :=
  [ ("topics.odom.direction", PString "ROS2ToSerial");
    ("topics.odom.serial_mapping", PInteger 300);
    ("topics.odom.type", PString "nav_msgs/Odometry") ].

Definition store_reordered : parameters :=
  [ ("topics.odom.serial_mapping", PInteger 300);
    ("topics.odom.direction", PString "ROS2ToSerial");
    ("topics.odom.type", PString "nav_msgs/Odometry") ].

(** A run of [main] with a statically configured bridge: two passes of the
    loop, then the signal handler has cleared [running]. *)
Definition main_static : MainEnv :=
  {| startup := Samples.startup_static;
     loop_tests := [(true, true); (true, true); (true, false); (true, true)] |}.

(** A run of [main] whose negotiation meets a silent peer. *)
Definition main_silent : MainEnv :=
  {| startup := Samples.startup_silent; loop_tests := [(true, true)] |}.

End MoreSamples.

(** * Properties *)

Section BuildTable.

Context `{TypeSupport}.

Lemma map_assign_insert (name : string) (f : TopicMapping → TopicMapping)
    (tm : TopicMapping) (tbl : table) :
  map_assign name f (<[name := tm]> tbl) = <[name := f tm]> tbl.
Proof.
  unfold map_assign, map_index.
  rewrite lookup_insert_eq.
  apply alter_insert_eq.
Qed.

(** One iteration inserts the row at index [i], overwriting whatever the
    table held for that name. *)
Lemma build_step_Return (msg : SerialMapping) (i : nat) (tbl tbl' : table) :
  build_step msg i tbl = Return tbl' →
  ∃ name tm, listed_at msg i name tm ∧ tbl' = <[name := tm]> tbl.
Proof.
  unfold build_step.
  destruct (topic_names msg !! i) as [name|] eqn:Hn; [|by destruct (serial_mappings msg !! i)].
  destruct (serial_mappings msg !! i) as [sm|] eqn:Hs; [|done].
  destruct (types msg !! i) as [ty|] eqn:Ht; [|done].
  destruct (directions msg !! i) as [code|] eqn:Hd; [|done].
  rewrite !map_assign_insert. cbn.
  destruct (Z.eqb_spec code SERIALTOROS2) as [He|He].
  - intros [= <-]. exists name, (mkTopicMapping sm ty SERIAL_TO_ROS2).
    split; [|done]. repeat split; try done. exists code. split; [done|]. by left.
  - destruct (Z.eqb_spec code ROS2TOSERIAL) as [He'|He']; [|done].
    intros [= <-]. exists name, (mkTopicMapping sm ty ROS2_TO_SERIAL).
    split; [|done]. repeat split; try done. exists code. split; [done|]. by right.
Qed.

(** The loop from index [i] on, [n] rows to go: names outside the rows
    keep their entry, and a name among them ends with the entry of its last
    row. *)
Lemma build_loop_Return (msg : SerialMapping) (n i : nat) (tbl tbl' : table) :
  build_loop msg n i tbl = Return tbl' →
  ∀ name,
    ((∀ k, (i ≤ k < i + n)%nat → topic_names msg !! k ≠ Some name) →
     tbl' !! name = tbl !! name)
    ∧ (∀ k, (i ≤ k < i + n)%nat →
         topic_names msg !! k = Some name →
         (∀ j, (k < j < i + n)%nat → topic_names msg !! j ≠ Some name) →
         ∃ tm, tbl' !! name = Some tm ∧ listed_at msg k name tm).
Proof.
  revert i tbl. induction n as [|n IH]; intros i tbl Hloop name; cbn in Hloop.
  - injection Hloop as <-. split; [done|]. intros k Hk. lia.
  - destruct (build_step msg i tbl) as [tbl1| | |] eqn:Hstep; try done.
    cbn in Hloop.
    apply build_step_Return in Hstep as (nm & tm & Hrow & ->).
    destruct (IH _ _ Hloop name) as [IHout IHin].
    split.
    + intros Hout. rewrite IHout.
      * apply lookup_insert_ne. intros ->.
        apply (Hout i); [lia|]. apply Hrow.
      * intros k Hk. apply Hout. lia.
    + intros k Hk Hname Hlast.
      destruct (decide (k = i)) as [->|Hki].
      * assert (nm = name) as ->.
        { destruct Hrow as [Hnm _]. congruence. }
        exists tm. split; [|done].
        rewrite IHout; [apply lookup_insert_eq|].
        intros j Hj. apply Hlast. lia.
      * apply IHin; [lia|done|]. intros j Hj. apply Hlast. lia.
Qed.

Lemma sizes_differ_false (msg : SerialMapping) :
  sizes_differ msg = false ↔
  length (topic_names msg) = length (serial_mappings msg)
  ∧ length (topic_names msg) = length (types msg)
  ∧ length (topic_names msg) = length (directions msg).
Proof.
  unfold sizes_differ.
  rewrite !orb_false_iff, !negb_false_iff, !Nat.eqb_eq. tauto.
Qed.

Lemma build_table_Return (msg : SerialMapping) (tbl : table) :
  build_table msg = Return tbl →
  sizes_differ msg = false
  ∧ build_loop msg (length (topic_names msg)) 0 ∅ = Return tbl.
Proof.
  unfold build_table. by destruct (sizes_differ msg).
Qed.

(** The returned table, name by name: the entry of the last row that
    carries the name, and no entry for a name that no row carries. *)
Lemma build_table_lookup (msg : SerialMapping) (tbl : table) :
  build_table msg = Return tbl →
  ∀ name,
    (name ∉ topic_names msg → tbl !! name = None)
    ∧ (∀ k, topic_names msg !! k = Some name →
         (∀ j, (k < j)%nat → topic_names msg !! j ≠ Some name) →
         ∃ tm, tbl !! name = Some tm ∧ listed_at msg k name tm).
Proof.
  intros [_ Hloop]%build_table_Return name.
  destruct (build_loop_Return _ _ _ _ _ Hloop name) as [Hout Hin].
  split.
  - intros Hnot. rewrite Hout; [done|].
    intros k _ Hk. apply Hnot. by eapply list_elem_of_lookup_2.
  - intros k Hk Hlast. apply Hin; [|done|].
    + apply lookup_lt_Some in Hk. lia.
    + intros j Hj. apply Hlast. lia.
Qed.

(** Every name of a list has a last index. *)
Lemma last_index (names : list string) (name : string) :
  name ∈ names →
  ∃ k, names !! k = Some name ∧ ∀ j, (k < j)%nat → names !! j ≠ Some name.
Proof.
  induction names as [|a names IH]; intros Hin; [by apply elem_of_nil in Hin|].
  destruct (decide (name ∈ names)) as [Htl|Htl].
  - destruct (IH Htl) as (k & Hk & Hlast).
    exists (S k). split; [done|].
    intros [|j] Hj; [lia|]. cbn. apply Hlast. lia.
  - apply elem_of_cons in Hin as [->|]; [|done].
    exists O. split; [done|].
    intros [|j] Hj; [lia|]. cbn. intros Hj'.
    apply Htl. by eapply list_elem_of_lookup_2.
Qed.

Lemma build_table_is_Some (msg : SerialMapping) (tbl : table) :
  build_table msg = Return tbl →
  ∀ name, is_Some (tbl !! name) ↔ name ∈ topic_names msg.
Proof.
  intros Hbuild name.
  destruct (build_table_lookup _ _ Hbuild name) as [Hout Hin].
  split.
  - intros [tm Htm]. destruct (decide (name ∈ topic_names msg)); [done|].
    rewrite Hout in Htm; done.
  - intros (k & Hk & Hlast)%last_index.
    destruct (Hin k Hk Hlast) as (tm & -> & _). by eexists.
Qed.

End BuildTable.

Section WaitLoop.

Context `{TypeSupport}.

Lemma to_uint64_nonneg (x : Z) : 0 ≤ to_uint64 x.
Proof.
  unfold to_uint64, uint64_modulus.
  apply Z.mod_pos_bound. lia.
Qed.

Lemma next_diff_ms_nonneg (wait_ms start d : Z) (p : Poll) :
  0 ≤ d → 0 ≤ next_diff_ms wait_ms start d p.
Proof.
  intros Hd. unfold next_diff_ms.
  destruct (0 <? wait_ms); [apply to_uint64_nonneg|done].
Qed.

(** The loop condition after a turn does not depend on the counter the
    turn started with, as long as that counter is not negative. *)
Lemma loop_condition_from_0 (wait_ms start d : Z) (p : Poll) :
  0 ≤ d →
  (next_diff_ms wait_ms start d p <? wait_ms)
  = (next_diff_ms wait_ms start 0 p <? wait_ms).
Proof.
  intros Hd. unfold next_diff_ms.
  destruct (Z.ltb_spec 0 wait_ms) as [Hw|Hw]; [done|].
  destruct (Z.ltb_spec d wait_ms), (Z.ltb_spec 0 wait_ms); lia || done.
Qed.

Lemma wait_loop_from_0 (wait_ms start d : Z) (script : list Poll) :
  0 ≤ d → wait_loop wait_ms start d script = wait_loop wait_ms start 0 script.
Proof.
  revert d. induction script as [|p script IH]; intros d Hd; [done|].
  cbn. destruct (is_response (poll_read p)); [done|].
  rewrite (loop_condition_from_0 _ _ d) by done.
  destruct (next_diff_ms wait_ms start 0 p <? wait_ms); [|done].
  rewrite (IH (next_diff_ms wait_ms start d p)) by by apply next_diff_ms_nonneg.
  by rewrite (IH (next_diff_ms wait_ms start 0 p)) by by apply next_diff_ms_nonneg.
Qed.

(** Turns that neither answer nor end the wait are read and passed over. *)
Lemma wait_loop_continues (wait_ms start : Z) (pre script : list Poll) :
  forallb (turn_continues wait_ms start) pre = true →
  wait_loop wait_ms start 0 (pre ++ script)
  = mkTraced ((EvRead ∘ poll_read <$> pre)
              ++ events (wait_loop wait_ms start 0 script))
             (outcome (wait_loop wait_ms start 0 script)).
Proof.
  induction pre as [|p pre IH]; intros Hpre.
  - cbn. by destruct (wait_loop wait_ms start 0 script).
  - cbn in Hpre. apply andb_true_iff in Hpre as [Hp Hpre].
    unfold turn_continues in Hp. apply andb_true_iff in Hp as [Hresp Hcond].
    apply negb_true_iff in Hresp.
    cbn. rewrite Hresp, Hcond.
    rewrite wait_loop_from_0 by (by apply next_diff_ms_nonneg).
    rewrite (IH Hpre). cbn. reflexivity.
Qed.

(** The wait loop leaves no write in the trace. *)
Lemma wait_loop_no_write (wait_ms start d : Z) (script : list Poll) :
  Forall (λ e, is_write e = false) (events (wait_loop wait_ms start d script)).
Proof.
  revert d. induction script as [|p script IH]; intros d; cbn; [constructor|].
  constructor; [done|].
  destruct (is_response (poll_read p)).
  - destruct (cdr_deserialize_SerialMapping _); cbn; constructor.
  - destruct (_ <? wait_ms); [apply IH|cbn; constructor].
Qed.

(** The negotiation, unfolded: the request, the test of the write, the
    wait loop, and the table built from what the loop got. *)
Lemma dynamically_get_serial_mapping_unfold (wait_ms : Z) (env : NegotiationEnv) :
  dynamically_get_serial_mapping wait_ms env
  = if write_result env <? 0 then
      mkTraced [EvWrite 0 cdr_serialize_Empty] (Throw FailedToWriteDynamicMessage)
    else
      let w := wait_loop wait_ms (clock_start env) 0 (polls env) in
      mkTraced (EvWrite 0 cdr_serialize_Empty :: events w)
               (match outcome w with
                | Return (Some msg) => build_table msg
                | Return None => Throw NoResponseToDynamicRequest
                | Throw e => Throw e
                | Starved => Starved
                | Undefined => Undefined
                end).
Proof.
  unfold dynamically_get_serial_mapping.
  destruct (write_result env <? 0); [done|].
  cbn. destruct (wait_loop wait_ms (clock_start env) 0 (polls env)) as [ev [[msg|]| | |]];
    cbn; rewrite ?app_nil_r; done.
Qed.

Lemma negotiation_builds_from_response (wait_ms : Z) (env : NegotiationEnv)
    (msg : SerialMapping) :
  0 ≤ write_result env →
  outcome (wait_loop wait_ms (clock_start env) 0 (polls env)) = Return (Some msg) →
  outcome (dynamically_get_serial_mapping wait_ms env) = build_table msg.
Proof.
  intros Hw Hloop. rewrite dynamically_get_serial_mapping_unfold.
  destruct (Z.ltb_spec (write_result env) 0); [lia|].
  cbn. by rewrite Hloop.
Qed.

(** C1: a negotiation response whose four sequences are not all of the same
    length makes [dynamically_get_serial_mapping] throw (the sizes error)
    and hand no entry to its caller, whichever sequence differs. *)
Theorem mismatched_sizes_rejected (wait_ms : Z) (env : NegotiationEnv)
    (msg : SerialMapping) :
  0 ≤ write_result env →
  outcome (wait_loop wait_ms (clock_start env) 0 (polls env)) = Return (Some msg) →
  ¬ (length (topic_names msg) = length (serial_mappings msg)
     ∧ length (topic_names msg) = length (types msg)
     ∧ length (topic_names msg) = length (directions msg)) →
  outcome (dynamically_get_serial_mapping wait_ms env) = Throw SizesDiffer
  ∧ produced_entries (outcome (dynamically_get_serial_mapping wait_ms env)) = ∅.
Proof.
  intros Hw Hloop Hsizes.
  rewrite (negotiation_builds_from_response _ _ _ Hw Hloop).
  unfold build_table.
  destruct (sizes_differ msg) eqn:Hd; [done|].
  apply sizes_differ_false in Hd. contradiction.
Qed.

(** A script that reaches the deadline without a response: the negotiation
    ends in the exception of the wait loop, or in that of the write. *)
Lemma negotiation_outcome_on_expiry (wait_ms : Z) (env : NegotiationEnv)
    (pre : list Poll) (p : Poll) (rest : list Poll) :
  polls env = pre ++ p :: rest →
  forallb (turn_continues wait_ms (clock_start env)) pre = true →
  turn_expires wait_ms (clock_start env) p = true →
  outcome (dynamically_get_serial_mapping wait_ms env)
  = Throw (if write_result env <? 0 then FailedToWriteDynamicMessage
           else NoResponseToDynamicRequest).
Proof.
  intros Hpolls Hpre Hp.
  rewrite dynamically_get_serial_mapping_unfold.
  destruct (write_result env <? 0); [done|].
  cbn. rewrite Hpolls, (wait_loop_continues _ _ _ _ Hpre).
  unfold turn_expires in Hp. apply andb_true_iff in Hp as [Hresp Hcond].
  apply negb_true_iff in Hresp. apply negb_true_iff in Hcond.
  cbn. by rewrite Hresp, Hcond.
Qed.

(** C2: when the wait loop reads no frame on topic 1 up to the turn at which
    the deadline has passed, the negotiation throws and hands no entry to
    its caller; it does not return a table, empty or not. *)
Theorem negotiation_timeout_throws (wait_ms : Z) (env : NegotiationEnv)
    (pre : list Poll) (p : Poll) (rest : list Poll) :
  polls env = pre ++ p :: rest →
  forallb (turn_continues wait_ms (clock_start env)) pre = true →
  turn_expires wait_ms (clock_start env) p = true →
  outcome (dynamically_get_serial_mapping wait_ms env)
  = Throw (if write_result env <? 0 then FailedToWriteDynamicMessage
           else NoResponseToDynamicRequest)
  ∧ produced_entries (outcome (dynamically_get_serial_mapping wait_ms env)) = ∅
  ∧ ∀ tbl, outcome (dynamically_get_serial_mapping wait_ms env) ≠ Return tbl.
Proof.
  intros Hpolls Hpre Hp.
  rewrite (negotiation_outcome_on_expiry _ _ _ _ _ Hpolls Hpre Hp).
  by repeat split.
Qed.

(** C4, as the code has it: the negotiation writes exactly once, first of
    all its calls and so before any read of the wait loop, on topic 0.  The
    payload is what the type support serializes an empty [std_msgs] message
    to, [getSerializedDataLength()] bytes of it: no bytes for a type support
    that writes nothing for the message, and not otherwise. *)
Theorem single_request_on_topic_0 (wait_ms : Z) (env : NegotiationEnv) :
  ∃ tr, events (dynamically_get_serial_mapping wait_ms env)
        = EvWrite 0 cdr_serialize_Empty :: tr
        ∧ Forall (λ e, is_write e = false) tr
        ∧ (cdr_serialize_Empty = [] ↔
           events (dynamically_get_serial_mapping wait_ms env) = EvWrite 0 [] :: tr).
Proof.
  rewrite dynamically_get_serial_mapping_unfold.
  destruct (write_result env <? 0); cbn.
  - exists []. repeat split; [done| |]; [by intros ->|by intros [= ->]].
  - eexists. repeat split; [apply wait_loop_no_write| |];
      [by intros ->|by intros [= ->]].
Qed.

(** C9: the first frame read on topic 1 that does not deserialize makes the
    negotiation throw at once: the trace ends with the read of that frame,
    whatever the script holds after it.  The frames read before it, on
    other topics, are passed over. *)
Theorem undeserializable_response_aborts (wait_ms : Z) (env : NegotiationEnv)
    (pre : list Poll) (p : Poll) (rest : list Poll) :
  0 ≤ write_result env →
  polls env = pre ++ p :: rest →
  forallb (turn_continues wait_ms (clock_start env)) pre = true →
  is_response (poll_read p) = true →
  cdr_deserialize_SerialMapping (rd_payload (poll_read p)) = None →
  outcome (dynamically_get_serial_mapping wait_ms env)
  = Throw NotEnoughMemoryForDeserialization
  ∧ events (dynamically_get_serial_mapping wait_ms env)
    = EvWrite 0 cdr_serialize_Empty :: (EvRead ∘ poll_read <$> pre ++ [p]).
Proof.
  intros Hw Hpolls Hpre Hresp Hdes.
  rewrite dynamically_get_serial_mapping_unfold.
  destruct (Z.ltb_spec (write_result env) 0); [lia|].
  cbn. rewrite Hpolls, (wait_loop_continues _ _ _ _ Hpre).
  cbn. rewrite Hresp, Hdes. cbn.
  by rewrite fmap_app.
Qed.

End WaitLoop.

(** C4, against the claim as written: with a type support that serializes
    the empty request to one byte, the frame written on topic 0 has a
    payload of one byte, not of none. *)
Lemma request_payload_need_not_be_empty :
  events (dynamically_get_serial_mapping (H := MoreSamples.one_byte_type_support)
            100 (Samples.env_answering Byte.x02))
  = [ EvWrite 0 [Byte.x00];
      EvRead Samples.read_other_topic;
      EvRead (Samples.read_response Byte.x02) ]
  ∧ length [Byte.x00] ≠ O.
Proof. split; [reflexivity|discriminate]. Qed.

Section NegotiatedTable.

Context `{TypeSupport}.

(** With the four sizes equal, the loop either runs through all the rows
    that are left, or stops with the direction error at the first unknown
    code. *)
Lemma build_loop_total (msg : SerialMapping) (n i : nat) (tbl : table) :
  sizes_differ msg = false →
  (i + n = length (topic_names msg))%nat →
  (Forall known_code (drop i (directions msg)) →
   ∃ tbl', build_loop msg n i tbl = Return tbl')
  ∧ (Exists (λ code, ¬ known_code code) (drop i (directions msg)) →
     build_loop msg n i tbl = Throw UnknownDirectionCode).
Proof.
  intros (Hs & Ht & Hd)%sizes_differ_false.
  revert i tbl. induction n as [|n IH]; intros i tbl Hlen.
  - rewrite drop_ge by lia. split; [by eexists|]. by intros ?%Exists_nil.
  - destruct (lookup_lt_is_Some_2 (topic_names msg) i) as [name Hname]; [lia|].
    destruct (lookup_lt_is_Some_2 (serial_mappings msg) i) as [sm Hsm]; [lia|].
    destruct (lookup_lt_is_Some_2 (types msg) i) as [ty Hty]; [lia|].
    destruct (lookup_lt_is_Some_2 (directions msg) i) as [code Hcode]; [lia|].
    rewrite (drop_S _ _ _ Hcode).
    cbn. unfold build_step. rewrite Hname, Hsm, Hty, Hcode. cbn zeta.
    destruct (IH (S i)) with (tbl := tbl) as [_ _]; [lia|].
    destruct (Z.eqb_spec code SERIALTOROS2) as [He|He];
      [|destruct (Z.eqb_spec code ROS2TOSERIAL) as [He'|He']].
    + cbn. split.
      * intros [_ Hall]%Forall_cons. by apply IH; [lia|].
      * intros [Hbad|Hex]%Exists_cons; [destruct Hbad; by left|].
        by apply IH; [lia|].
    + cbn. split.
      * intros [_ Hall]%Forall_cons. by apply IH; [lia|].
      * intros [Hbad|Hex]%Exists_cons; [destruct Hbad; by right|].
        by apply IH; [lia|].
    + cbn. split; [|done].
      intros [[?|?] _]%Forall_cons; done.
Qed.

(** Which responses the table is built from: the four sizes agree and every
    direction code is known. *)
Lemma build_table_accepts (msg : SerialMapping) :
  (∃ tbl, build_table msg = Return tbl) ↔
  sizes_differ msg = false ∧ Forall known_code (directions msg).
Proof.
  split.
  - intros [tbl Hbuild].
    destruct (build_table_Return _ _ Hbuild) as [Hsizes Hloop].
    split; [done|].
    destruct (build_loop_total msg (length (topic_names msg)) 0 ∅ Hsizes)
      as [_ Hthrow]; [lia|].
    destruct (Forall_Exists_dec known_code (λ code, ¬ known_code code))
      with (l := directions msg) as [Hall|Hex]; [|done|].
    { intros code. unfold known_code.
      destruct (decide (code = SERIALTOROS2)); [left; by left|].
      destruct (decide (code = ROS2TOSERIAL)); [left; by right|].
      right. by intros [?|?]. }
    rewrite Hloop in Hthrow. by specialize (Hthrow Hex).
  - intros [Hsizes Hall]. unfold build_table. rewrite Hsizes.
    by apply build_loop_total.
Qed.

Lemma translated_not_UNKNOWN (code : Z) (dir : Direction) :
  translated code dir → dir ≠ UNKNOWN.
Proof. by intros [[_ ->]|(_ & _ & ->)]. Qed.

(** Every entry of the returned table is the entry of the last row of its
    name. *)
Lemma build_table_entry (msg : SerialMapping) (tbl : table) (name : string)
    (tm : TopicMapping) :
  build_table msg = Return tbl →
  tbl !! name = Some tm →
  ∃ k, listed_at msg k name tm
       ∧ ∀ j, (k < j)%nat → topic_names msg !! j ≠ Some name.
Proof.
  intros Hbuild Htm.
  assert (name ∈ topic_names msg) as (k & Hk & Hlast)%last_index.
  { apply (build_table_is_Some _ _ Hbuild). by eexists. }
  destruct (build_table_lookup _ _ Hbuild name) as [_ Hin].
  destruct (Hin k Hk Hlast) as (tm' & Htm' & Hrow).
  exists k. split; [|done]. congruence.
Qed.

Lemma build_table_size (msg : SerialMapping) (tbl : table) :
  build_table msg = Return tbl →
  size tbl = length (remove_dups (topic_names msg)).
Proof.
  intros Hbuild.
  rewrite <- (size_list_to_set (C := gset string)) by apply NoDup_remove_dups.
  rewrite <- (size_dom (D := gset string)).
  f_equal. apply set_eq. intros name.
  rewrite elem_of_dom, elem_of_list_to_set, elem_of_remove_dups.
  by apply build_table_is_Some.
Qed.

(** C7: a negotiation response of equal sizes whose direction codes are all
    known is turned into a table: every name the response lists gets an
    entry, whose direction is the one that corresponds to the code of the
    name's last row ([SERIALTOROS2] gives [SERIAL_TO_ROS2], [ROS2TOSERIAL]
    gives [ROS2_TO_SERIAL]).  Whatever table the negotiation returns, that
    holds of it, and none of its entries has direction [UNKNOWN].  A
    response with a code that is neither constant makes the negotiation
    throw, and no entry is produced. *)
Theorem direction_codes_translated (wait_ms : Z) (env : NegotiationEnv)
    (msg : SerialMapping) :
  SERIALTOROS2 ≠ ROS2TOSERIAL →
  0 ≤ write_result env →
  outcome (wait_loop wait_ms (clock_start env) 0 (polls env)) = Return (Some msg) →
  (∀ tbl,
     outcome (dynamically_get_serial_mapping wait_ms env) = Return tbl →
     (∀ k name code,
        topic_names msg !! k = Some name →
        (∀ j, (k < j)%nat → topic_names msg !! j ≠ Some name) →
        directions msg !! k = Some code →
        ∃ tm, tbl !! name = Some tm
              ∧ (code = SERIALTOROS2 → direction tm = SERIAL_TO_ROS2)
              ∧ (code = ROS2TOSERIAL → direction tm = ROS2_TO_SERIAL))
     ∧ (∀ name tm,
          tbl !! name = Some tm →
          direction tm ≠ UNKNOWN
          ∧ ∃ k code,
              topic_names msg !! k = Some name
              ∧ (∀ j, (k < j)%nat → topic_names msg !! j ≠ Some name)
              ∧ directions msg !! k = Some code
              ∧ (code = SERIALTOROS2 → direction tm = SERIAL_TO_ROS2)
              ∧ (code = ROS2TOSERIAL → direction tm = ROS2_TO_SERIAL)))
  ∧ (sizes_differ msg = false →
     Forall known_code (directions msg) →
     ∃ tbl, outcome (dynamically_get_serial_mapping wait_ms env) = Return tbl)
  ∧ (sizes_differ msg = false →
     Exists (λ code, ¬ known_code code) (directions msg) →
     outcome (dynamically_get_serial_mapping wait_ms env)
     = Throw UnknownDirectionCode
     ∧ produced_entries (outcome (dynamically_get_serial_mapping wait_ms env)) = ∅).
Proof.
  intros Hne Hw Hloop.
  rewrite (negotiation_builds_from_response _ _ _ Hw Hloop).
  assert (∀ code dir, translated code dir →
            (code = SERIALTOROS2 → dir = SERIAL_TO_ROS2)
            ∧ (code = ROS2TOSERIAL → dir = ROS2_TO_SERIAL)) as Htr.
  { intros code dir [[-> ->]|(Hn & -> & ->)]; by split. }
  split; [|split].
  - intros tbl Hbuild. split.
    + intros k name code Hname Hlast Hcode.
      destruct (build_table_lookup _ _ Hbuild name) as [_ Hin].
      destruct (Hin k Hname Hlast)
        as (tm & Htm & _ & _ & _ & code' & Hcode' & Htrans).
      exists tm. split; [done|].
      assert (code' = code) as -> by congruence. by apply Htr.
    + intros name tm Htm.
      destruct (build_table_entry _ _ _ _ Hbuild Htm)
        as (k & (Hname & _ & _ & code & Hcode & Htrans) & Hlast).
      split; [by eapply translated_not_UNKNOWN|].
      exists k, code. repeat split; try done; by apply Htr.
  - intros Hsizes Hall. apply build_table_accepts. by split.
  - intros Hsizes Hex. unfold build_table. rewrite Hsizes.
    destruct (build_loop_total msg (length (topic_names msg)) 0 ∅ Hsizes)
      as [_ Hthrow]; [lia|].
    by rewrite (Hthrow Hex).
Qed.

(** C10: the table returned by the negotiation is keyed by topic name.  For
    a response of equal sizes and known codes the negotiation returns a
    table in which a name that the response lists, at one index or at
    several, has one entry, whose serial mapping, type and direction are
    those of the last index that carries the name; every listed name has an
    entry and no other name has one, so the table has as many entries as the
    response has distinct names. *)
Theorem table_keyed_by_topic_name (wait_ms : Z) (env : NegotiationEnv)
    (msg : SerialMapping) :
  0 ≤ write_result env →
  outcome (wait_loop wait_ms (clock_start env) 0 (polls env)) = Return (Some msg) →
  sizes_differ msg = false →
  Forall known_code (directions msg) →
  ∃ tbl : table,
    outcome (dynamically_get_serial_mapping wait_ms env) = Return tbl
    ∧ (∀ k name,
         topic_names msg !! k = Some name →
         (∀ j, (k < j)%nat → topic_names msg !! j ≠ Some name) →
         ∃ tm, tbl !! name = Some tm ∧ listed_at msg k name tm)
    ∧ (∀ name, is_Some (tbl !! name) ↔ name ∈ topic_names msg)
    ∧ size tbl = length (remove_dups (topic_names msg)).
Proof.
  intros Hw Hloop Hsizes Hcodes.
  rewrite (negotiation_builds_from_response _ _ _ Hw Hloop).
  destruct (proj2 (build_table_accepts msg) (conj Hsizes Hcodes)) as [tbl Hbuild].
  exists tbl. split; [done|]. split; [|split].
  - intros k name. by apply build_table_lookup.
  - by apply build_table_is_Some.
  - by apply build_table_size.
Qed.

End NegotiatedTable.

Section StaticTable.

(** A property of entries that holds of the default entry and that an
    assignment keeps, is kept by [tbl[name].field = v]. *)
Lemma map_assign_preserves (P : TopicMapping → Prop) (name : string)
    (f : TopicMapping → TopicMapping) (tbl : table) :
  P TopicMapping_default →
  (∀ tm, P tm → P (f tm)) →
  map_Forall (λ _ tm, P tm) tbl →
  map_Forall (λ _ tm, P tm) (map_assign name f tbl).
Proof.
  intros Hdef Hf Htbl n tm. unfold map_assign.
  assert (map_Forall (λ _ tm, P tm) (map_index name tbl)) as Hidx.
  { unfold map_index. destruct (tbl !! name); [done|].
    by apply map_Forall_insert_2. }
  rewrite lookup_alter. case_decide; [|by apply Hidx].
  subst n. destruct (map_index name tbl !! name) as [tm0|] eqn:Hl; [|done].
  intros [= <-]. apply Hf. by eapply Hidx.
Qed.

Lemma static_cast_topic_id_range (x : Z) :
  0 ≤ static_cast_topic_id x < topic_id_size_t_max.
Proof.
  unfold static_cast_topic_id, topic_id_size_t_max.
  apply Z.mod_pos_bound. lia.
Qed.

Lemma parse_parameter_serial_range (store : parameters) (name : string)
    (tbl tbl' : table) :
  parse_parameter store name tbl = Return tbl' →
  map_Forall (λ _ tm, in_topic_id_range tm) tbl →
  map_Forall (λ _ tm, in_topic_id_range tm) tbl'.
Proof.
  intros Hparse Htbl.
  assert (in_topic_id_range TopicMapping_default) as Hdef.
  { unfold in_topic_id_range, topic_id_size_t_max. cbn. lia. }
  unfold parse_parameter in Hparse.
  set (P := in_topic_id_range) in *.
  repeat (case_match; try done; simplify_eq; try done);
    unfold mbind, result_bind in *;
    repeat (case_match; try done; simplify_eq; try done);
    (apply map_assign_preserves; [done| |];
     [ intros tm Htm; unfold P, in_topic_id_range; cbn;
       try apply static_cast_topic_id_range; apply Htm
     | try done; by apply map_Forall_insert_2 ]).
Qed.

Lemma parse_names_serial_range (store : parameters) (names : list string)
    (tbl tbl' : table) :
  parse_names store names tbl = Return tbl' →
  map_Forall (λ _ tm, in_topic_id_range tm) tbl →
  map_Forall (λ _ tm, in_topic_id_range tm) tbl'.
Proof.
  revert tbl. induction names as [|name names IH]; intros tbl Hparse Htbl.
  - by injection Hparse as <-.
  - cbn in Hparse.
    destruct (parse_parameter store name tbl) as [tbl1| | |] eqn:Hone; try done.
    eapply IH; [exact Hparse|].
    by eapply parse_parameter_serial_range.
Qed.

(** The serial id of a statically configured topic is the parameter value
    reduced to 8 bits, or the default 0: within 0..255, and no value in
    that range is set apart. *)
Lemma static_serial_ids_in_range (store : parameters) (tbl : table)
    (name : string) (tm : TopicMapping) :
  parse_node_parameters_for_topics store = Return tbl →
  tbl !! name = Some tm →
  in_topic_id_range tm.
Proof.
  intros Hparse Htm.
  eapply (parse_names_serial_range _ _ ∅ tbl Hparse); [|exact Htm].
  apply map_Forall_empty.
Qed.

End StaticTable.

Section ReservedIds.

Context `{TypeSupport}.


End ReservedIds.

Section HandOver.

Context `{TypeSupport}.

Lemma head_omap_None {A B : Type} (f : A → option B) (l : list A) :
  head (omap f l) = None ↔ Forall (λ x, f x = None) l.
Proof.
  induction l as [|x l IH]; cbn.
  - split; [constructor|done].
  - rewrite Forall_cons. destruct (f x); cbn.
    + split; [done|by intros [? _]].
    + rewrite IH. tauto.
Qed.

(** [ROS2Topics] takes a table over exactly when no entry of it has
    direction [UNKNOWN] or serial id 0 or 1. *)
Lemma ROS2Topics_new_None (tbl : table) :
  ROS2Topics_new tbl = None ↔
  ∀ name tm, tbl !! name = Some tm →
             direction tm ≠ UNKNOWN
             ∧ serial_mapping tm ≠ 0 ∧ serial_mapping tm ≠ 1.
Proof.
  unfold ROS2Topics_new. rewrite head_omap_None, Forall_forall. split.
  - intros Hall name tm Htm.
    specialize (Hall (name, tm) (proj2 (elem_of_map_to_list _ _ _) Htm)).
    unfold entry_fault in Hall. cbn in Hall.
    repeat case_bool_decide; try done. tauto.
  - intros Hall [name tm] Hin%elem_of_map_to_list.
    destruct (Hall name tm Hin) as (Hdir & H0 & H1).
    unfold entry_fault. cbn.
    rewrite !bool_decide_eq_false_2; [done|tauto|done].
Qed.


End HandOver.

(** The two builders hand on reserved ids: a negotiated response that gives
    serial id 0 to a topic is turned into a table that carries the entry with
    id 0, and static parameters that give serial id 1 to a topic into a
    table with id 1.  Rejecting them is left to the user of the table. *)
Lemma reserved_ids_are_accepted :
  (∃ tbl,
     outcome (dynamically_get_serial_mapping (H := Samples.sample_type_support)
                100 (Samples.env_answering Byte.x01)) = Return tbl
     ∧ serial_mapping <$> tbl !! "chatter" = Some 0)
  ∧ (∃ tbl,
       parse_node_parameters_for_topics (Samples.store_static 0) = Return tbl
       ∧ serial_mapping <$> tbl !! "chatter" = Some 1).
Proof.
  split.
  - eexists. split; [vm_compute; reflexivity|]. vm_compute. reflexivity.
  - eexists. split; [vm_compute; reflexivity|]. vm_compute. reflexivity.
Qed.

Section Startup.

Context `{TypeSupport}.

(** The constructor once its six parameters are set and the transporter is
    initialized: the sign of [dynamic_serial_mapping_ms] alone picks the
    source of the table. *)
Lemma ROS2SerialBridge_new_configured (env : StartupEnv)
    (device serial_protocol : string)
    (dynamic_serial_mapping_ms baudrate read_poll_ms ring_buffer_size : Z) :
  get_parameter (node_parameters env) "device" = Some (PString device) →
  get_parameter (node_parameters env) "serial_protocol"
  = Some (PString serial_protocol) →
  get_parameter (node_parameters env) "dynamic_serial_mapping_ms"
  = Some (PInteger dynamic_serial_mapping_ms) →
  get_parameter (node_parameters env) "baudrate" = Some (PInteger baudrate) →
  get_parameter (node_parameters env) "read_poll_ms"
  = Some (PInteger read_poll_ms) →
  get_parameter (node_parameters env) "ring_buffer_size"
  = Some (PInteger ring_buffer_size) →
  0 ≤ init_result env →
  ROS2SerialBridge_new env
  = if 0 <? dynamic_serial_mapping_ms then
      let t := dynamically_get_serial_mapping dynamic_serial_mapping_ms
                                              (negotiation env) in
      mkTraced (EvInit :: events t) (mkROS2SerialBridge <$> outcome t)
    else
      mkTraced [EvInit]
               (mkROS2SerialBridge
                  <$> parse_node_parameters_for_topics (node_parameters env)).
Proof.
  intros Hdev Hproto Hdyn Hbaud Hpoll Hring Hinit.
  unfold ROS2SerialBridge_new, get_parameter_string, get_parameter_int.
  rewrite Hdev, Hproto, Hdyn, Hbaud, Hpoll, Hring.
  destruct (Z.ltb_spec (init_result env) 0); [lia|].
  cbn -[dynamically_get_serial_mapping parse_node_parameters_for_topics].
  destruct (0 <? dynamic_serial_mapping_ms).
  - destruct (dynamically_get_serial_mapping dynamic_serial_mapping_ms
                (negotiation env)) as [ev [tbl| | |]]; cbn;
      rewrite ?app_nil_r; done.
  - destruct (parse_node_parameters_for_topics (node_parameters env)); done.
Qed.

(** C5, as the code has it: a negotiation that runs into its timeout makes
    the constructor throw, and the static parameters are not consulted; the
    static table is the table of the bridge exactly when
    [dynamic_serial_mapping_ms] is not positive, in which case no
    negotiation takes place. *)
Theorem timeout_aborts_startup (env : StartupEnv)
    (device serial_protocol : string)
    (dynamic_serial_mapping_ms baudrate read_poll_ms ring_buffer_size : Z)
    (pre : list Poll) (p : Poll) (rest : list Poll) :
  get_parameter (node_parameters env) "device" = Some (PString device) →
  get_parameter (node_parameters env) "serial_protocol"
  = Some (PString serial_protocol) →
  get_parameter (node_parameters env) "dynamic_serial_mapping_ms"
  = Some (PInteger dynamic_serial_mapping_ms) →
  get_parameter (node_parameters env) "baudrate" = Some (PInteger baudrate) →
  get_parameter (node_parameters env) "read_poll_ms"
  = Some (PInteger read_poll_ms) →
  get_parameter (node_parameters env) "ring_buffer_size"
  = Some (PInteger ring_buffer_size) →
  0 ≤ init_result env →
  (0 < dynamic_serial_mapping_ms →
   polls (negotiation env) = pre ++ p :: rest →
   forallb (turn_continues dynamic_serial_mapping_ms
                           (clock_start (negotiation env))) pre = true →
   turn_expires dynamic_serial_mapping_ms (clock_start (negotiation env)) p
   = true →
   outcome (ROS2SerialBridge_new env)
   = Throw (if write_result (negotiation env) <? 0
            then FailedToWriteDynamicMessage
            else NoResponseToDynamicRequest))
  ∧ (dynamic_serial_mapping_ms ≤ 0 →
     ROS2SerialBridge_new env
     = mkTraced [EvInit]
                (mkROS2SerialBridge
                   <$> parse_node_parameters_for_topics (node_parameters env))).
Proof.
  intros Hdev Hproto Hdyn Hbaud Hpoll Hring Hinit.
  rewrite (ROS2SerialBridge_new_configured _ _ _ _ _ _ _
             Hdev Hproto Hdyn Hbaud Hpoll Hring Hinit).
  split.
  - intros Hpos Hpolls Hpre Hp.
    destruct (Z.ltb_spec 0 dynamic_serial_mapping_ms); [|lia].
    cbn zeta. cbn [outcome].
    by rewrite (negotiation_outcome_on_expiry _ _ _ _ _ Hpolls Hpre Hp).
  - intros Hnonpos.
    by destruct (Z.ltb_spec 0 dynamic_serial_mapping_ms); [lia|].
Qed.

End Startup.

(** C5, against the claim as written: with a timeout of 100 ms, a peer that
    stays silent and a topic configured in the static parameters, the
    constructor throws; the table that the static parameters describe is not
    the table of any bridge. *)
Lemma no_fallback_to_static_table :
  outcome (ROS2SerialBridge_new (H := Samples.sample_type_support)
             Samples.startup_silent)
  = Throw NoResponseToDynamicRequest
  ∧ ∃ tbl,
      parse_node_parameters_for_topics (node_parameters Samples.startup_silent)
      = Return tbl
      ∧ tbl !! "chatter" = Some (mkTopicMapping 1 "std_msgs/String" SERIAL_TO_ROS2)
      ∧ outcome (ROS2SerialBridge_new (H := Samples.sample_type_support)
                   Samples.startup_silent)
        ≠ Return (mkROS2SerialBridge tbl).
Proof.
  split; [vm_compute; reflexivity|].
  eexists. split; [vm_compute; reflexivity|].
  split; [vm_compute; reflexivity|].
  vm_compute. discriminate.
Qed.

Section ReaderLoop.

Lemma read_thread_func_cons (r : ReadResult) (status : future_status)
    (script : list (ReadResult * future_status)) :
  read_thread_func ((r, status) :: script)
  = if is_timeout status then
      mkTraced (read_iteration r ++ events (read_thread_func script))
               (outcome (read_thread_func script))
    else mkTraced (read_iteration r) (Return ()).
Proof.
  destruct status; cbn; rewrite ?app_nil_r; done.
Qed.

(** C3, as the code has it: the reader loop does not look at the sign of a
    result that is not positive.  A negative result, like a zero one, is
    read and not dispatched, and the loop goes on; it ends at the first
    test of the future that does not time out, whatever the reads returned,
    and then returns normally. *)
Theorem reader_loop_runs_until_cancelled
    (pre : list (ReadResult * future_status)) (r : ReadResult)
    (status : future_status) (rest : list (ReadResult * future_status)) :
  forallb (λ turn, is_timeout turn.2) pre = true →
  is_timeout status = false →
  read_thread_func (pre ++ (r, status) :: rest)
  = mkTraced (mjoin (read_iteration ∘ fst <$> pre ++ [(r, status)])) (Return ())
  ∧ ∀ r' : ReadResult, rd_length r' ≤ 0 → read_iteration r' = [EvRead r'].
Proof.
  intros Hpre Hstatus. split.
  - induction pre as [|[r0 st0] pre IH].
    + cbn [app]. rewrite read_thread_func_cons, Hstatus.
      cbn. by rewrite app_nil_r.
    + cbn in Hpre. apply andb_true_iff in Hpre as [Hst0 Hpre].
      cbn [app]. rewrite read_thread_func_cons, Hst0, (IH Hpre).
      reflexivity.
  - intros r' Hr'. unfold read_iteration.
    by destruct (Z.ltb_spec 0 (rd_length r')); [lia|].
Qed.

End ReaderLoop.

(** C3, against the claim as written: after a read that returns -1 the
    reader loop reads twice more, dispatches the frame it then gets, and
    returns normally once the future is ready; the failure is neither the end
    of the loop nor reported. *)
Lemma negative_read_does_not_stop_reader :
  read_thread_func [ (Samples.read_error, timeout);
                     (Samples.read_other_topic, timeout);
                     (Samples.read_nothing, ready) ]
  = mkTraced [ EvRead Samples.read_error;
               EvRead Samples.read_other_topic;
               EvDispatch 9 [Byte.x68; Byte.x69];
               EvRead Samples.read_nothing ]
             (Return ()).
Proof. reflexivity. Qed.

Section Teardown.

Lemma read_iteration_no_teardown (r : ReadResult) :
  filter (λ e, is_teardown e = true) (read_iteration r) = [].
Proof. unfold read_iteration. by destruct (0 <? rd_length r). Qed.

Lemma owner_step_inv (s : System) : teardown_inv s → teardown_inv (owner_step s).
Proof.
  destruct s as [o rd ex cl tr]. unfold teardown_inv, owner_step. cbn.
  destruct o; cbn.
  - intros (_ & -> & Htr). rewrite filter_app, Htr. done.
  - intros (-> & -> & Htr). destruct rd; cbn; try done.
    rewrite filter_app, Htr. done.
  - intros (-> & _ & -> & Htr). repeat split. by exists tr.
  - done.
Qed.

Lemma reader_step_inv (r : ReadResult) (s : System) :
  teardown_inv s → teardown_inv (reader_step r s).
Proof.
  destruct s as [o rd ex cl tr]. unfold teardown_inv, reader_step. cbn.
  destruct rd; cbn; try done.
  - rewrite filter_app, read_iteration_no_teardown, app_nil_r.
    destruct o; cbn; try done.
    + by intros (? & ? & ? & ?).
    + by intros (? & ? & ? & ?).
  - destruct o; cbn; try done.
    + by intros (? & ? & ? & ?).
    + by intros (? & ? & ? & ?).
Qed.

Lemma run_inv (schedule : list Turn) (s : System) :
  teardown_inv s → teardown_inv (run schedule s).
Proof.
  revert s. induction schedule as [|t schedule IH]; intros s Hs; [done|].
  cbn. apply IH. destruct t; [by apply owner_step_inv|by apply reader_step_inv].
Qed.

(** From any point of the teardown, the finishing schedule brings the
    destructor to its end. *)
Lemma finishing_schedule_finishes (r : ReadResult) (s : System) :
  teardown_inv s → owner (run (finishing_schedule r) s) = Destroyed.
Proof.
  destruct s as [o rd ex cl tr]. unfold teardown_inv. cbn.
  destruct o; cbn.
  - intros (-> & _). by destruct rd.
  - intros (-> & _). by destruct rd.
  - by intros (_ & _ & -> & _).
  - by intros (_ & _ & -> & _).
Qed.

(** C8: whatever the interleaving with the reader thread, the destructor
    makes its three calls in the order set the signal, join, close, each
    once; the transporter is closed only when the reader thread has left
    its loop and has been joined, and the close is the last call of the
    trace, so that no read follows it.  Every run can be brought to that
    end. *)
Theorem teardown_order (pc : reader_pc) (tr0 : list Event)
    (schedule : list Turn) (r : ReadResult) :
  filter (λ e, is_teardown e = true) tr0 = [] →
  filter (λ e, is_teardown e = true)
         (sys_trace (run schedule (at_destruction pc tr0)))
    `prefix_of` [EvSetValue; EvJoin; EvClose]
  ∧ (transporter_closed (run schedule (at_destruction pc tr0)) = true →
     reader (run schedule (at_destruction pc tr0)) = ThreadExited
     ∧ ∃ tr, sys_trace (run schedule (at_destruction pc tr0)) = tr ++ [EvClose]
             ∧ filter (λ e, is_teardown e = true) tr = [EvSetValue; EvJoin])
  ∧ owner (run (finishing_schedule r) (run schedule (at_destruction pc tr0)))
    = Destroyed
  ∧ filter (λ e, is_teardown e = true)
           (sys_trace (run (finishing_schedule r)
                           (run schedule (at_destruction pc tr0))))
    = [EvSetValue; EvJoin; EvClose].
Proof.
  intros Htr0.
  assert (teardown_inv (at_destruction pc tr0)) as Hinit.
  { unfold teardown_inv. by cbn. }
  pose proof (run_inv schedule _ Hinit) as Hinv.
  pose proof (finishing_schedule_finishes r _ Hinv) as Hfin.
  pose proof (run_inv (finishing_schedule r) _ Hinv) as Hinv'.
  set (s := run schedule (at_destruction pc tr0)) in *.
  set (s' := run (finishing_schedule r) s) in *.
  split; [|split; [|split]].
  - unfold teardown_inv in Hinv. destruct (owner s).
    + destruct Hinv as (_ & _ & ->). by eexists.
    + destruct Hinv as (_ & _ & ->). by eexists.
    + destruct Hinv as (_ & _ & _ & ->). by eexists.
    + destruct Hinv as (_ & _ & _ & tr & -> & Htr).
      rewrite filter_app, Htr. by exists [].
  - intros Hclosed. unfold teardown_inv in Hinv. destruct (owner s).
    + destruct Hinv as (_ & ? & _). congruence.
    + destruct Hinv as (_ & ? & _). congruence.
    + destruct Hinv as (_ & ? & _). congruence.
    + destruct Hinv as (_ & _ & ? & ?). done.
  - done.
  - unfold teardown_inv in Hinv'. rewrite Hfin in Hinv'.
    destruct Hinv' as (_ & _ & _ & tr & -> & Htr).
    rewrite filter_app, Htr. done.
Qed.

End Teardown.

(** * The theorems at the sample inputs *)

Module Witnesses.

Import Samples.

#[local] Existing Instance sample_type_support.

Lemma mismatched_sizes_rejected_witness :
  outcome (dynamically_get_serial_mapping 100 (env_answering Byte.x03))
  = Throw SizesDiffer
  ∧ produced_entries
      (outcome (dynamically_get_serial_mapping 100 (env_answering Byte.x03))) = ∅.
Proof.
  apply (mismatched_sizes_rejected 100 (env_answering Byte.x03) msg_short).
  - vm_compute. discriminate.
  - reflexivity.
  - vm_compute. intros (_ & Htypes & _). discriminate Htypes.
Defined.

Lemma negotiation_timeout_throws_witness :
  outcome (dynamically_get_serial_mapping 100 env_silent)
  = Throw NoResponseToDynamicRequest
  ∧ produced_entries (outcome (dynamically_get_serial_mapping 100 env_silent)) = ∅
  ∧ ∀ tbl, outcome (dynamically_get_serial_mapping 100 env_silent) ≠ Return tbl.
Proof.
  apply (negotiation_timeout_throws 100 env_silent
           [ {| poll_read := read_nothing; poll_now := 1050000000 |} ]
           {| poll_read := read_other_topic; poll_now := 1100000000 |}
           [ {| poll_read := read_response Byte.x01; poll_now := 1150000000 |} ]).
  - reflexivity.
  - vm_compute. reflexivity.
  - vm_compute. reflexivity.
Defined.

Lemma single_request_on_topic_0_witness :
  ∃ tr, events (dynamically_get_serial_mapping 100 (env_answering Byte.x02))
        = EvWrite 0 [] :: tr
        ∧ Forall (λ e, is_write e = false) tr.
Proof.
  destruct (single_request_on_topic_0 100 (env_answering Byte.x02))
    as (tr & Hev & Hnone & _).
  exists tr. by split.
Defined.

Lemma undeserializable_response_aborts_witness :
  outcome (dynamically_get_serial_mapping 100 (env_answering Byte.x09))
  = Throw NotEnoughMemoryForDeserialization
  ∧ events (dynamically_get_serial_mapping 100 (env_answering Byte.x09))
    = [ EvWrite 0 []; EvRead read_other_topic; EvRead (read_response Byte.x09) ].
Proof.
  refine (undeserializable_response_aborts 100 (env_answering Byte.x09)
            [ {| poll_read := read_other_topic; poll_now := 1010000000 |} ]
            {| poll_read := read_response Byte.x09; poll_now := 1020000000 |}
            [ {| poll_read := read_nothing; poll_now := 1030000000 |} ]
            _ eq_refl eq_refl eq_refl eq_refl).
  vm_compute. discriminate.
Defined.

Lemma direction_codes_translated_witness :
  (∃ tm, (<["chatter" := mkTopicMapping 7 "std_msgs/Empty" ROS2_TO_SERIAL]>
          (<["odom" := mkTopicMapping 5 "nav_msgs/Odometry" ROS2_TO_SERIAL]> ∅)
          : table) !! "chatter" = Some tm
         ∧ direction tm = ROS2_TO_SERIAL)
  ∧ (∃ tbl, outcome (dynamically_get_serial_mapping 100 (env_answering Byte.x02))
            = Return tbl)
  ∧ outcome (dynamically_get_serial_mapping 100 (env_answering Byte.x04))
    = Throw UnknownDirectionCode.
Proof.
  assert (Hne : SERIALTOROS2 ≠ ROS2TOSERIAL) by (vm_compute; discriminate).
  assert (Hw : ∀ b, 0 ≤ write_result (env_answering b))
    by (intros b; vm_compute; discriminate).
  split; [|split].
  - assert (∀ j, (2 < j)%nat → topic_names msg_twice !! j ≠ Some "chatter")
      as Hlast.
    { intros [|[|[|j]]] Hj; try lia; cbn; discriminate. }
    destruct (proj1 (proj1 (direction_codes_translated
                              100 (env_answering Byte.x02) msg_twice
                              Hne (Hw _) eq_refl) _ eq_refl)
                    2%nat "chatter" 1 eq_refl Hlast eq_refl)
      as (tm & Htm & _ & Hdir).
    exists tm. split; [exact Htm|]. by apply Hdir.
  - refine (proj1 (proj2 (direction_codes_translated
                            100 (env_answering Byte.x02) msg_twice
                            Hne (Hw _) eq_refl)) eq_refl _).
    repeat constructor; by (left + right).
  - refine (proj1 (proj2 (proj2 (direction_codes_translated
                                   100 (env_answering Byte.x04) msg_bad_direction
                                   Hne (Hw _) eq_refl)) eq_refl _)).
    right. left. vm_compute. intros [Hcode|Hcode]; discriminate Hcode.
Defined.

Lemma table_keyed_by_topic_name_witness :
  ∃ tbl : table,
    outcome (dynamically_get_serial_mapping 100 (env_answering Byte.x02))
    = Return tbl
    ∧ (∀ k name,
         topic_names msg_twice !! k = Some name →
         (∀ j, (k < j)%nat → topic_names msg_twice !! j ≠ Some name) →
         ∃ tm, tbl !! name = Some tm ∧ listed_at msg_twice k name tm)
    ∧ (∀ name, is_Some (tbl !! name) ↔ name ∈ topic_names msg_twice)
    ∧ size tbl = length (remove_dups (topic_names msg_twice)).
Proof.
  apply (table_keyed_by_topic_name 100 (env_answering Byte.x02) msg_twice).
  - vm_compute. discriminate.
  - reflexivity.
  - reflexivity.
  - repeat constructor; by (left + right).
Defined.


Lemma timeout_aborts_startup_witness :
  outcome (ROS2SerialBridge_new startup_silent) = Throw NoResponseToDynamicRequest
  ∧ ROS2SerialBridge_new startup_static
    = mkTraced [EvInit]
               (mkROS2SerialBridge
                  <$> parse_node_parameters_for_topics (store_static 0)).
Proof.
  split.
  - refine (proj1 (timeout_aborts_startup startup_silent
                     "/dev/ttyACM0" "px4" 100 115200 100 8192
                     [ {| poll_read := read_nothing; poll_now := 1050000000 |} ]
                     {| poll_read := read_other_topic; poll_now := 1100000000 |}
                     [ {| poll_read := read_response Byte.x01; poll_now := 1150000000 |} ]
                     eq_refl eq_refl eq_refl eq_refl eq_refl eq_refl _)
                  _ eq_refl eq_refl eq_refl).
    + vm_compute. discriminate.
    + lia.
  - refine (proj2 (timeout_aborts_startup startup_static
                     "/dev/ttyACM0" "px4" 0 115200 100 8192
                     [] {| poll_read := read_nothing; poll_now := 1050000000 |} []
                     eq_refl eq_refl eq_refl eq_refl eq_refl eq_refl _) _).
    + vm_compute. discriminate.
    + lia.
Defined.

Lemma reader_loop_runs_until_cancelled_witness :
  read_thread_func [ (read_error, timeout); (read_nothing, ready);
                     (read_other_topic, timeout) ]
  = mkTraced [ EvRead read_error; EvRead read_nothing ] (Return ()).
Proof.
  apply (reader_loop_runs_until_cancelled
           [ (read_error, timeout) ] read_nothing ready
           [ (read_other_topic, timeout) ]); reflexivity.
Defined.

Lemma teardown_order_witness :
  owner (run (finishing_schedule read_nothing)
             (run [ReaderTurn read_other_topic; OwnerTurn]
                  (at_destruction AtRead [EvRead read_nothing])))
  = Destroyed.
Proof.
  apply (teardown_order AtRead [EvRead read_nothing]
           [ReaderTurn read_other_topic; OwnerTurn] read_nothing).
  reflexivity.
Defined.

End Witnesses.


(** * Further properties of the negotiation *)

Section NegotiationTrace.

Context `{TypeSupport}.

(** The wait loop reads the turns of its script in order, one read a turn,
    and at least the first one. *)
Lemma wait_loop_reads_prefix (wait_ms start d : Z) (script : list Poll) :
  ∃ n, (n ≤ length script)%nat
       ∧ events (wait_loop wait_ms start d script)
         = (EvRead ∘ poll_read <$> take n script)
       ∧ (script ≠ [] → (1 ≤ n)%nat).
Proof.
  revert d. induction script as [|p script IH]; intros d.
  - exists O. by repeat split.
  - cbn.
    destruct (is_response (poll_read p)).
    + exists 1%nat. cbn. rewrite take_0.
      destruct (cdr_deserialize_SerialMapping (rd_payload (poll_read p)));
        repeat split; done || lia.
    + destruct (next_diff_ms wait_ms start d p <? wait_ms).
      * destruct (IH (next_diff_ms wait_ms start d p)) as (n & Hn & Hev & _).
        exists (S n). cbn. rewrite <- Hev.
        repeat split; done || lia.
      * exists 1%nat. cbn. rewrite take_0.
        repeat split; done || lia.
Qed.

(** X1: whatever the peer sends, the calls of the negotiation on the
    transporter are one write on topic 0 followed by reads only, the reads
    answered by the turns of the script in order.  A failed write is
    followed by no read; after a write that went through, the loop reads at
    least once, whatever the time budget.  No frame is dispatched during the
    negotiation and the transporter is not closed. *)
Theorem negotiation_trace_shape (wait_ms : Z) (env : NegotiationEnv) :
  ∃ n, (n ≤ length (polls env))%nat
       ∧ events (dynamically_get_serial_mapping wait_ms env)
         = EvWrite 0 cdr_serialize_Empty
           :: (EvRead ∘ poll_read <$> take n (polls env))
       ∧ (write_result env < 0 →
          n = O
          ∧ outcome (dynamically_get_serial_mapping wait_ms env)
            = Throw FailedToWriteDynamicMessage)
       ∧ (0 ≤ write_result env → polls env ≠ [] → (1 ≤ n)%nat).
Proof.
  rewrite dynamically_get_serial_mapping_unfold.
  destruct (Z.ltb_spec (write_result env) 0) as [Hw|Hw].
  - exists O. rewrite take_0. repeat split; lia.
  - destruct (wait_loop_reads_prefix wait_ms (clock_start env) 0 (polls env))
      as (n & Hn & Hev & Hone).
    exists n. cbn. rewrite Hev. repeat split; [done|lia|lia|done].
Qed.

(** X2: the first frame of positive length on topic 1 that deserializes
    settles the negotiation: its message alone decides the result, the clock
    is not consulted at that turn (a response that comes in past the
    deadline is taken all the same), and nothing is read after it. *)
Theorem first_response_is_taken (wait_ms : Z) (env : NegotiationEnv)
    (pre : list Poll) (p : Poll) (rest : list Poll) (msg : SerialMapping) :
  0 ≤ write_result env →
  polls env = pre ++ p :: rest →
  forallb (turn_continues wait_ms (clock_start env)) pre = true →
  is_response (poll_read p) = true →
  cdr_deserialize_SerialMapping (rd_payload (poll_read p)) = Some msg →
  outcome (dynamically_get_serial_mapping wait_ms env) = build_table msg
  ∧ events (dynamically_get_serial_mapping wait_ms env)
    = EvWrite 0 cdr_serialize_Empty :: (EvRead ∘ poll_read <$> pre ++ [p]).
Proof.
  intros Hw Hpolls Hpre Hresp Hdes.
  rewrite dynamically_get_serial_mapping_unfold.
  destruct (Z.ltb_spec (write_result env) 0); [lia|].
  cbn. rewrite Hpolls, (wait_loop_continues _ _ _ _ Hpre).
  cbn. rewrite Hresp, Hdes. cbn.
  by rewrite fmap_app.
Qed.

(** X3: with a time budget of zero the loop condition fails at once: the
    negotiation reads exactly once, whatever the clock says, and throws
    unless that one read is a response. *)
Theorem no_budget_polls_once (env : NegotiationEnv)
    (p : Poll) (rest : list Poll) :
  0 ≤ write_result env →
  polls env = p :: rest →
  events (dynamically_get_serial_mapping 0 env)
  = [EvWrite 0 cdr_serialize_Empty; EvRead (poll_read p)]
  ∧ (is_response (poll_read p) = false →
     outcome (dynamically_get_serial_mapping 0 env)
     = Throw NoResponseToDynamicRequest).
Proof.
  intros Hw Hpolls.
  rewrite dynamically_get_serial_mapping_unfold.
  destruct (Z.ltb_spec (write_result env) 0); [lia|].
  cbn. rewrite Hpolls. cbn.
  destruct (is_response (poll_read p)).
  - split; [|done].
    by destruct (cdr_deserialize_SerialMapping (rd_payload (poll_read p))).
  - done.
Qed.

Lemma elapsed_ms_step_back (start now : Z) :
  start - 2 ^ 63 ≤ now ≤ start - system_clock_ticks_per_ms →
  2 ^ 63 < elapsed_ms start now.
Proof.
  unfold elapsed_ms, to_uint64, uint64_modulus, system_clock_ticks_per_ms.
  change (2 ^ 63) with 9223372036854775808.
  change (2 ^ 64) with 18446744073709551616.
  intros Hnow.
  Z.quot_rem_to_equations. Z.div_mod_to_equations. lia.
Qed.

Lemma elapsed_ms_under_a_millisecond (start now : Z) :
  start - system_clock_ticks_per_ms < now < start + system_clock_ticks_per_ms →
  elapsed_ms start now = 0.
Proof.
  unfold elapsed_ms, to_uint64, uint64_modulus, system_clock_ticks_per_ms.
  change (2 ^ 64) with 18446744073709551616.
  intros Hnow.
  Z.quot_rem_to_equations. Z.div_mod_to_equations. lia.
Qed.

(** X4: the elapsed time is cut to whole milliseconds and kept in an
    unsigned counter.  A clock that reads a millisecond or more before the
    start of the wait therefore counts as a very long wait: the first turn
    that is not a response and at which the clock has stepped back that far
    ends the negotiation with the no-response error.  A step back of less
    than a millisecond counts as no time at all, and the wait goes on. *)
Theorem clock_step_back_ends_wait (wait_ms : Z) (env : NegotiationEnv)
    (pre : list Poll) (p : Poll) (rest : list Poll) :
  0 < wait_ms ≤ 2 ^ 63 →
  0 ≤ write_result env →
  polls env = pre ++ p :: rest →
  forallb (turn_continues wait_ms (clock_start env)) pre = true →
  is_response (poll_read p) = false →
  clock_start env - 2 ^ 63 ≤ poll_now p
  ≤ clock_start env - system_clock_ticks_per_ms →
  outcome (dynamically_get_serial_mapping wait_ms env)
  = Throw NoResponseToDynamicRequest
  ∧ ∀ q : Poll,
      is_response (poll_read q) = false →
      clock_start env - system_clock_ticks_per_ms < poll_now q ≤ clock_start env →
      turn_continues wait_ms (clock_start env) q = true.
Proof.
  intros Hwait Hw Hpolls Hpre Hresp Hclock. split.
  - rewrite (negotiation_outcome_on_expiry wait_ms env pre p rest Hpolls Hpre).
    + by destruct (Z.ltb_spec (write_result env) 0); [lia|].
    + unfold turn_expires, next_diff_ms. rewrite Hresp. cbn.
      destruct (Z.ltb_spec 0 wait_ms); [|lia].
      apply negb_true_iff, Z.ltb_ge.
      pose proof (elapsed_ms_step_back _ _ Hclock). lia.
  - intros q Hq Hnow. unfold turn_continues, next_diff_ms. rewrite Hq. cbn.
    destruct (Z.ltb_spec 0 wait_ms); [|lia].
    rewrite elapsed_ms_under_a_millisecond; [by apply Z.ltb_lt|].
    unfold system_clock_ticks_per_ms in *. lia.
Qed.

(** X5: a response without rows is not an error: the negotiation returns,
    and the table it returns is empty. *)
Theorem empty_response_gives_empty_table (wait_ms : Z) (env : NegotiationEnv)
    (msg : SerialMapping) :
  0 ≤ write_result env →
  outcome (wait_loop wait_ms (clock_start env) 0 (polls env)) = Return (Some msg) →
  topic_names msg = [] →
  sizes_differ msg = false →
  outcome (dynamically_get_serial_mapping wait_ms env) = Return ∅.
Proof.
  intros Hw Hloop Hnames Hsizes.
  rewrite (negotiation_builds_from_response _ _ _ Hw Hloop).
  unfold build_table. by rewrite Hsizes, Hnames.
Qed.

End NegotiationTrace.

(** * Further properties of the reader thread and of the teardown *)

Section Shutdown.

Lemma after_signal_app (tr more : list Event) :
  has_signal tr = true → after_signal (tr ++ more) = after_signal tr ++ more.
Proof.
  induction tr as [|e tr IH]; [done|].
  destruct e; cbn; try done; apply IH.
Qed.

Lemma after_signal_none (tr : list Event) :
  has_signal tr = false → after_signal tr = [].
Proof.
  induction tr as [|e tr IH]; [done|].
  destruct e; cbn; try done; apply IH.
Qed.

Lemma after_signal_first (tr : list Event) :
  has_signal tr = false → after_signal (tr ++ [EvSetValue]) = [].
Proof.
  induction tr as [|e tr IH]; [done|].
  destruct e; cbn; try done; apply IH.
Qed.

Lemma has_signal_app (tr more : list Event) :
  has_signal (tr ++ more) = has_signal tr || has_signal more.
Proof. apply existsb_app. Qed.

Lemma read_iteration_no_signal (r : ReadResult) :
  has_signal (read_iteration r) = false.
Proof. unfold read_iteration. by destruct (0 <? rd_length r). Qed.

Lemma read_iteration_one_read (r : ReadResult) :
  length (filter (λ e, is_read_event e = true) (read_iteration r)) = 1%nat.
Proof. unfold read_iteration. by destruct (0 <? rd_length r). Qed.

Lemma reads_after_signal_app (tr more : list Event) :
  has_signal tr = true →
  reads_after_signal (tr ++ more)
  = (reads_after_signal tr
     + length (filter (λ e, is_read_event e = true) more))%nat.
Proof.
  intros Hsig. unfold reads_after_signal.
  by rewrite after_signal_app, filter_app, length_app.
Qed.

Lemma teardown_call_is_no_read (e : Event) :
  is_teardown e = true →
  length (filter (λ e, is_read_event e = true) [e]) = O.
Proof. by destruct e. Qed.

Lemma owner_step_shutdown_inv (s : System) :
  teardown_inv s → shutdown_inv s → shutdown_inv (owner_step s).
Proof.
  destruct s as [o rd ex cl tr].
  unfold teardown_inv, shutdown_inv, owner_step.
  destruct o; cbn -[has_signal reads_after_signal].
  - intros _ Hnone. rewrite has_signal_app, orb_true_r.
    unfold reads_after_signal. rewrite (after_signal_first _ Hnone). cbn.
    destruct rd; repeat split; done || lia.
  - intros _ (Hsig & Hex & Hrd).
    destruct rd; cbn -[has_signal reads_after_signal]; try done.
    rewrite has_signal_app, Hsig, (reads_after_signal_app _ _ Hsig),
      teardown_call_is_no_read by done.
    cbn in *. repeat split; done || lia.
  - intros (_ & _ & -> & _) (Hsig & Hex & Hrd).
    rewrite has_signal_app, Hsig, (reads_after_signal_app _ _ Hsig),
      teardown_call_is_no_read by done.
    cbn in *. repeat split; done || lia.
  - done.
Qed.

Lemma reader_step_shutdown_inv (r : ReadResult) (s : System) :
  shutdown_inv s → shutdown_inv (reader_step r s).
Proof.
  destruct s as [o rd ex cl tr].
  unfold shutdown_inv, reader_step, wait_for. cbn -[has_signal reads_after_signal].
  destruct rd; cbn -[has_signal reads_after_signal]; try done.
  - destruct o; cbn -[has_signal reads_after_signal].
    + intros Hnone. by rewrite has_signal_app, Hnone, read_iteration_no_signal.
    + intros (Hsig & Hex & Hrd).
      rewrite has_signal_app, Hsig, (reads_after_signal_app _ _ Hsig),
        read_iteration_one_read, Hrd. by repeat split.
    + intros (Hsig & Hex & Hrd).
      rewrite has_signal_app, Hsig, (reads_after_signal_app _ _ Hsig),
        read_iteration_one_read, Hrd. by repeat split.
    + intros (Hsig & Hex & Hrd).
      rewrite has_signal_app, Hsig, (reads_after_signal_app _ _ Hsig),
        read_iteration_one_read, Hrd. by repeat split.
  - destruct o; cbn -[has_signal reads_after_signal]; try done.
    + intros (Hsig & -> & Hrd). by repeat split.
    + intros (Hsig & -> & Hrd). by repeat split.
    + intros (Hsig & -> & Hrd). by repeat split.
Qed.

Lemma run_shutdown_inv (schedule : list Turn) (s : System) :
  teardown_inv s → shutdown_inv s → shutdown_inv (run schedule s).
Proof.
  revert s. induction schedule as [|t schedule IH]; intros s Ht Hs; [done|].
  cbn. destruct t.
  - apply IH; [by apply owner_step_inv|by apply owner_step_shutdown_inv].
  - apply IH; [by apply reader_step_inv|by apply reader_step_shutdown_inv].
Qed.

Lemma no_teardown_no_signal (tr : list Event) :
  filter (λ e, is_teardown e = true) tr = [] → has_signal tr = false.
Proof.
  induction tr as [|e tr IH]; [done|].
  destruct e; cbn; try done; rewrite ?filter_cons; cbn; try done; apply IH.
Qed.

(** X6: once the destructor has given the signal, the reader thread asks the
    transporter for at most one more read before it leaves its loop,
    whatever the interleaving and whatever the reads return. *)
Theorem at_most_one_read_after_signal (pc : reader_pc) (tr0 : list Event)
    (schedule : list Turn) :
  filter (λ e, is_teardown e = true) tr0 = [] →
  (reads_after_signal (sys_trace (run schedule (at_destruction pc tr0))) ≤ 1)%nat.
Proof.
  intros Htr0.
  assert (teardown_inv (at_destruction pc tr0)) as Ht.
  { unfold teardown_inv. by cbn. }
  assert (shutdown_inv (at_destruction pc tr0)) as Hs.
  { unfold shutdown_inv. cbn. by apply no_teardown_no_signal. }
  pose proof (run_shutdown_inv schedule _ Ht Hs) as Hinv.
  unfold shutdown_inv in Hinv.
  destruct (owner (run schedule (at_destruction pc tr0))).
  - unfold reads_after_signal. rewrite (after_signal_none _ Hinv). cbn. lia.
  - destruct Hinv as (_ & _ & Hrd).
    destruct (reader (run schedule (at_destruction pc tr0))); lia.
  - destruct Hinv as (_ & _ & Hrd).
    destruct (reader (run schedule (at_destruction pc tr0))); lia.
  - destruct Hinv as (_ & _ & Hrd).
    destruct (reader (run schedule (at_destruction pc tr0))); lia.
Qed.

Lemma step_exit_needs_signal (s : System) (t : Turn) :
  (reader s = ThreadExited → exit_signal s = true) →
  (reader (step s t) = ThreadExited → exit_signal (step s t) = true).
Proof.
  destruct s as [o rd ex cl tr]. destruct t as [|r]; cbn.
  - unfold owner_step. cbn. destruct o; cbn; try done. by destruct rd.
  - unfold reader_step, wait_for. cbn. destruct rd; cbn; try done.
    by destruct ex.
Qed.

Lemma run_exit_needs_signal (schedule : list Turn) (s : System) :
  (reader s = ThreadExited → exit_signal s = true) →
  reader (run schedule s) = ThreadExited →
  exit_signal (run schedule s) = true.
Proof.
  revert s. induction schedule as [|t schedule IH]; intros s Hs; [done|].
  cbn. apply IH. by apply step_exit_needs_signal.
Qed.

(** X7: the reader thread never leaves its loop of its own accord: as long
    as the promise has not been given its value, a thread that was in the
    loop is still in it, whatever its reads returned, errors included. *)
Theorem reader_exits_only_on_signal (pc : reader_pc) (tr0 : list Event)
    (schedule : list Turn) :
  pc ≠ ThreadExited →
  exit_signal (run schedule (at_destruction pc tr0)) = false →
  reader (run schedule (at_destruction pc tr0)) ≠ ThreadExited.
Proof.
  intros Hpc Hsig Hexit.
  rewrite (run_exit_needs_signal schedule (at_destruction pc tr0)) in Hsig; done.
Qed.

(** X8: the destructor is the end of all activity: once it has closed the
    transporter, no turn of either thread changes the state or adds a call to
    the trace. *)
Theorem nothing_after_close (pc : reader_pc) (tr0 : list Event)
    (schedule more : list Turn) :
  filter (λ e, is_teardown e = true) tr0 = [] →
  owner (run schedule (at_destruction pc tr0)) = Destroyed →
  run more (run schedule (at_destruction pc tr0))
  = run schedule (at_destruction pc tr0).
Proof.
  intros Htr0 Hown.
  assert (teardown_inv (at_destruction pc tr0)) as Hinit.
  { unfold teardown_inv. by cbn. }
  pose proof (run_inv schedule _ Hinit) as Hinv.
  unfold teardown_inv in Hinv. rewrite Hown in Hinv.
  destruct Hinv as (_ & _ & Hrd & _).
  revert Hown Hrd. generalize (run schedule (at_destruction pc tr0)).
  intros s Hown Hrd.
  induction more as [|t more IH]; [done|].
  cbn. replace (step s t) with s; [exact IH|].
  destruct s as [o rd ex cl tr]. cbn in *. subst.
  by destruct t.
Qed.

End Shutdown.

Section ReaderDispatch.

Lemma read_iteration_split (r : ReadResult) (rest tr1 tr2 : list Event)
    (topic_ID : Z) (payload : list Byte.byte) :
  read_iteration r ++ rest = tr1 ++ EvDispatch topic_ID payload :: tr2 →
  (tr1 = [EvRead r] ∧ 0 < rd_length r
   ∧ topic_ID = rd_topic_ID r ∧ payload = rd_payload r)
  ∨ (∃ tr1', tr1 = read_iteration r ++ tr1'
             ∧ rest = tr1' ++ EvDispatch topic_ID payload :: tr2).
Proof.
  unfold read_iteration.
  destruct (Z.ltb_spec 0 (rd_length r)) as [Hpos|Hneg]; cbn.
  - destruct tr1 as [|e1 [|e2 tr1]]; cbn; intros Heq; simplify_eq.
    + by left.
    + right. by exists tr1.
  - destruct tr1 as [|e1 tr1]; cbn; intros Heq; simplify_eq.
    right. by exists tr1.
Qed.

(** X9: the reader loop dispatches nothing it has not just read: every
    dispatch in its trace comes right after a read that returned a positive
    length, and carries the topic of that read and the first [length] bytes
    of its buffer. *)
Theorem dispatch_follows_its_read (script : list (ReadResult * future_status))
    (tr1 tr2 : list Event) (topic_ID : Z) (payload : list Byte.byte) :
  events (read_thread_func script) = tr1 ++ EvDispatch topic_ID payload :: tr2 →
  ∃ tr0 r, tr1 = tr0 ++ [EvRead r]
           ∧ 0 < rd_length r
           ∧ topic_ID = rd_topic_ID r
           ∧ payload = take (Z.to_nat (rd_length r)) (rd_data r).
Proof.
  revert tr1. induction script as [|[r status] script IH]; intros tr1 Hev.
  - by destruct tr1.
  - rewrite read_thread_func_cons in Hev.
    assert (∃ rest, read_iteration r ++ rest
                    = tr1 ++ EvDispatch topic_ID payload :: tr2
                    ∧ (rest = [] ∨ rest = events (read_thread_func script)))
      as (rest & Hsplit & Hrest).
    { destruct (is_timeout status); cbn in Hev.
      - eexists. split; [exact Hev|by right].
      - exists []. rewrite app_nil_r. split; [exact Hev|by left]. }
    apply read_iteration_split in Hsplit
      as [(-> & Hpos & -> & ->)|(tr1' & -> & Htail)].
    + by exists [], r.
    + destruct Hrest as [->| ->]; [by destruct tr1'|].
      destruct (IH _ Htail) as (tr0 & r' & -> & Hr').
      exists (read_iteration r ++ tr0), r'. by rewrite app_assoc.
Qed.

End ReaderDispatch.

(** * Further properties of the constructor *)

Section ConstructorTrace.

Context `{TypeSupport}.

(** X10: the constructor does not touch the transporter before its six
    parameters are read.  When they are all set and of the right type, its
    first call is [init]; a failed [init] is its only call and it throws the
    init error, and after an [init] that went through the calls that follow
    are those of the negotiation for a positive
    [dynamic_serial_mapping_ms] and none otherwise.  When one of the six is
    missing or of the wrong type the constructor throws and has called
    nothing; the first parameter that is missing decides the exception. *)
Theorem transporter_untouched_until_configured (env : StartupEnv) :
  (∀ dyn, configured (node_parameters env) dyn →
     (init_result env < 0 →
      ROS2SerialBridge_new env = mkTraced [EvInit] (Throw TransporterInitFailed))
     ∧ (0 ≤ init_result env →
        ∃ tr, events (ROS2SerialBridge_new env) = EvInit :: tr
              ∧ (0 < dyn →
                 tr = events (dynamically_get_serial_mapping dyn (negotiation env)))
              ∧ (dyn ≤ 0 → tr = [])))
  ∧ ((∀ dyn, ¬ configured (node_parameters env) dyn) →
     events (ROS2SerialBridge_new env) = []
     ∧ ∃ e, outcome (ROS2SerialBridge_new env) = Throw e
            ∧ e ∈ [NoDevice; NoSerialProtocol; NoDynamicSerialMapping;
                   NoBaudrate; NoReadPollMs; NoRingBufferSize;
                   ParameterTypeMismatch])
  ∧ (get_parameter (node_parameters env) "device" = None →
     outcome (ROS2SerialBridge_new env) = Throw NoDevice)
  ∧ (∀ device serial_protocol dyn baudrate read_poll_ms,
       get_parameter (node_parameters env) "device" = Some (PString device) →
       (get_parameter (node_parameters env) "serial_protocol" = None →
        outcome (ROS2SerialBridge_new env) = Throw NoSerialProtocol)
       ∧ (get_parameter (node_parameters env) "serial_protocol"
          = Some (PString serial_protocol) →
          (get_parameter (node_parameters env) "dynamic_serial_mapping_ms" = None →
           outcome (ROS2SerialBridge_new env) = Throw NoDynamicSerialMapping)
          ∧ (get_parameter (node_parameters env) "dynamic_serial_mapping_ms"
             = Some (PInteger dyn) →
             (get_parameter (node_parameters env) "baudrate" = None →
              outcome (ROS2SerialBridge_new env) = Throw NoBaudrate)
             ∧ (get_parameter (node_parameters env) "baudrate"
                = Some (PInteger baudrate) →
                (get_parameter (node_parameters env) "read_poll_ms" = None →
                 outcome (ROS2SerialBridge_new env) = Throw NoReadPollMs)
                ∧ (get_parameter (node_parameters env) "read_poll_ms"
                   = Some (PInteger read_poll_ms) →
                   get_parameter (node_parameters env) "ring_buffer_size" = None →
                   outcome (ROS2SerialBridge_new env)
                   = Throw NoRingBufferSize))))).
Proof.
  split; [|split; [|split]].
  - intros dyn ((device & Hdev) & (proto & Hproto) & Hdyn & (baud & Hbaud)
                & (poll & Hpoll) & (ring & Hring)).
    split.
    + intros Hinit.
      unfold ROS2SerialBridge_new, get_parameter_string, get_parameter_int.
      rewrite Hdev, Hproto, Hdyn, Hbaud, Hpoll, Hring.
      by destruct (Z.ltb_spec (init_result env) 0); [|lia].
    + intros Hinit.
      rewrite (ROS2SerialBridge_new_configured _ _ _ _ _ _ _
                 Hdev Hproto Hdyn Hbaud Hpoll Hring Hinit).
      destruct (Z.ltb_spec 0 dyn); cbn; eexists;
        (split; [done|split; [intros; done || lia|intros; done || lia]]).
  - intros Hnot.
    unfold ROS2SerialBridge_new, get_parameter_string, get_parameter_int.
    destruct (get_parameter (node_parameters env) "device") as [[]|] eqn:Hdev;
      try (split; [done|]; eexists; split; [done|set_solver]).
    destruct (get_parameter (node_parameters env) "serial_protocol")
      as [[]|] eqn:Hproto;
      try (split; [done|]; eexists; split; [done|set_solver]).
    destruct (get_parameter (node_parameters env) "dynamic_serial_mapping_ms")
      as [[| dyn | |]|] eqn:Hdyn;
      try (split; [done|]; eexists; split; [done|set_solver]).
    destruct (get_parameter (node_parameters env) "baudrate") as [[]|] eqn:Hbaud;
      try (split; [done|]; eexists; split; [done|set_solver]).
    destruct (get_parameter (node_parameters env) "read_poll_ms")
      as [[]|] eqn:Hpoll;
      try (split; [done|]; eexists; split; [done|set_solver]).
    destruct (get_parameter (node_parameters env) "ring_buffer_size")
      as [[]|] eqn:Hring;
      try (split; [done|]; eexists; split; [done|set_solver]).
    destruct (Hnot dyn). unfold configured. rewrite Hdev, Hproto, Hdyn, Hbaud, Hpoll, Hring.
    repeat split; by eexists.
  - intros Hdev.
    unfold ROS2SerialBridge_new, get_parameter_string. by rewrite Hdev.
  - intros device proto dyn baud poll Hdev.
    unfold ROS2SerialBridge_new, get_parameter_string, get_parameter_int.
    rewrite Hdev. split; [by intros ->|]. intros ->.
    split; [by intros ->|]. intros ->.
    split; [by intros ->|]. intros ->.
    split; [by intros ->|]. intros -> Hring. by rewrite Hring.
Qed.

End ConstructorTrace.

(** * Further properties of the static parser *)

Section Strings.

Lemma string_app_nil (s : string) : "" +:+ s = s.
Proof. reflexivity. Qed.

Lemma string_app_cons (a : ascii) (s1 s2 : string) :
  String a s1 +:+ s2 = String a (s1 +:+ s2).
Proof. reflexivity. Qed.

Lemma string_length_app (s1 s2 : string) :
  String.length (s1 +:+ s2) = (String.length s1 + String.length s2)%nat.
Proof.
  induction s1 as [|a s1 IH]; [done|].
  rewrite string_app_cons. simpl. by rewrite IH.
Qed.

Lemma string_app_assoc (s1 s2 s3 : string) :
  (s1 +:+ s2) +:+ s3 = s1 +:+ (s2 +:+ s3).
Proof.
  induction s1 as [|a s1 IH]; [done|].
  rewrite !string_app_cons. by rewrite IH.
Qed.

Lemma count_char_app (c : ascii) (s1 s2 : string) :
  count_char c (s1 +:+ s2) = (count_char c s1 + count_char c s2)%nat.
Proof.
  induction s1 as [|a s1 IH]; [done|].
  rewrite string_app_cons. simpl. rewrite IH. lia.
Qed.

Lemma find_first_of_shift (c : ascii) (s1 s2 : string) (pos : nat) :
  find_first_of c (s1 +:+ s2) (String.length s1 + pos)
  = (λ i, String.length s1 + i)%nat <$> find_first_of c s2 pos.
Proof.
  induction s1 as [|a s1 IH].
  - rewrite string_app_nil. simpl. by destruct (find_first_of c s2 pos).
  - rewrite string_app_cons. simpl. rewrite IH.
    by destruct (find_first_of c s2 pos).
Qed.

Lemma find_first_of_skip (c : ascii) (s1 s2 : string) :
  count_char c s1 = O →
  find_first_of c (s1 +:+ String c s2) 0 = Some (String.length s1).
Proof.
  induction s1 as [|a s1 IH].
  - intros _. rewrite string_app_nil. simpl. by rewrite decide_True.
  - rewrite string_app_cons. simpl.
    destruct (decide (a = c)); [done|]. simpl. intros Hc. by rewrite IH.
Qed.

Lemma find_first_of_None_count (c : ascii) (s : string) :
  find_first_of c s 0 = None → count_char c s = O.
Proof.
  induction s as [|a s IH]; simpl; [done|].
  destruct (decide (a = c)); [done|].
  destruct (find_first_of c s 0); [done|]. intros _. by rewrite IH.
Qed.

Lemma find_first_of_once (c : ascii) (s : string) (i : nat) :
  find_first_of c s 0 = Some i →
  find_first_of c s (S i) = None →
  count_char c s = 1%nat.
Proof.
  revert i. induction s as [|a s IH]; intros i; simpl; [done|].
  destruct (decide (a = c)).
  - intros [= <-]. simpl.
    destruct (find_first_of c s 0) eqn:Hs; [done|]. intros _.
    by rewrite (find_first_of_None_count _ _ Hs).
  - destruct (find_first_of c s 0) as [i'|] eqn:Hs; [|done].
    intros [= <-]. simpl.
    destruct (find_first_of c s (S i')) eqn:Hs'; [done|]. intros _.
    by rewrite (IH i').
Qed.

Lemma substring_skip (s1 s2 : string) (k m : nat) :
  String.substring (String.length s1 + k) m (s1 +:+ s2) = String.substring k m s2.
Proof.
  induction s1 as [|a s1 IH]; [done|].
  rewrite string_app_cons. simpl. apply IH.
Qed.

Lemma substring_prefix (s1 s2 : string) :
  String.substring 0 (String.length s1) (s1 +:+ s2) = s1.
Proof.
  induction s1 as [|a s1 IH].
  - rewrite string_app_nil. by destruct s2.
  - rewrite string_app_cons. simpl. by rewrite IH.
Qed.

Lemma substring_all (s : string) (m : nat) :
  (String.length s ≤ m)%nat → String.substring 0 m s = s.
Proof.
  revert m. induction s as [|a s IH]; intros m Hm; [by destruct m|].
  destruct m as [|m]; simpl in *; [lia|]. rewrite IH; [done|lia].
Qed.

End Strings.

Section StaticParser.

(** The loop body, given how the name splits at its two dots. *)
Lemma parse_parameter_split (store : parameters) (name : string) (tbl : table)
    (p1 p2 : nat) (topic_name param_name : string) :
  count_char dot name = 2%nat →
  find_first_of dot name 0 = Some p1 →
  substr name 0 p1 = "topics" →
  p1 ≠ String.length name →
  find_first_of dot name (p1 + 1) = Some p2 →
  substr name (p1 + 1) (p2 - p1 - 1) = topic_name →
  p2 ≠ String.length name →
  substr name (p2 + 1) (String.length name - String.length topic_name - 6)
  = param_name →
  parse_parameter store name tbl
  = assign_topic_parameter store name topic_name param_name tbl.
Proof.
  intros Hcount Hp1 Htopics Hlen1 Hp2 Htopic Hlen2 Hparam.
  unfold parse_parameter, assign_topic_parameter.
  rewrite Hcount, Hp1. cbn [Nat.eqb negb].
  rewrite Htopics, bool_decide_eq_true_2 by done. cbn [negb].
  rewrite (proj2 (Nat.eqb_neq _ _) Hlen1), Hp2, Htopic.
  rewrite (proj2 (Nat.eqb_neq _ _) Hlen2).
  change (String.length "topics") with 6%nat. rewrite Hparam.
  reflexivity.
Qed.

(** The name of a field of a topic splits into the topic and the field. *)
Lemma parse_parameter_topic_parameter (store : parameters)
    (topic_name param_name : string) (tbl : table) :
  count_char dot topic_name = O →
  count_char dot param_name = O →
  parse_parameter store (topic_parameter topic_name param_name) tbl
  = assign_topic_parameter store (topic_parameter topic_name param_name)
      topic_name param_name tbl.
Proof.
  intros Ht Hp.
  assert (String.length (topic_parameter topic_name param_name)
          = (8 + String.length topic_name + String.length param_name)%nat) as Hlen.
  { unfold topic_parameter. rewrite !string_length_app. cbn. lia. }
  apply parse_parameter_split with (p1 := 6%nat)
                                    (p2 := (7 + String.length topic_name)%nat).
  - unfold topic_parameter. rewrite !count_char_app, Ht, Hp. reflexivity.
  - apply (find_first_of_skip dot "topics"). reflexivity.
  - apply (substring_prefix "topics").
  - lia.
  - unfold topic_parameter.
    rewrite (find_first_of_shift dot "topics." _ 0).
    change ("." +:+ param_name) with (String dot param_name).
    by rewrite find_first_of_skip.
  - unfold topic_parameter, substr.
    replace (7 + String.length topic_name - 6 - 1)%nat
      with (String.length topic_name) by lia.
    rewrite (substring_skip "topics." _ 0). apply substring_prefix.
  - lia.
  - unfold substr. rewrite Hlen.
    replace (7 + String.length topic_name + 1)%nat
      with (String.length ("topics." +:+ topic_name +:+ ".") + 0)%nat
      by (rewrite !string_length_app; cbn; lia).
    unfold topic_parameter.
    rewrite <- (string_app_assoc topic_name "." param_name).
    rewrite <- (string_app_assoc "topics." (topic_name +:+ ".") param_name).
    rewrite substring_skip. apply substring_all. lia.
Qed.

Lemma map_assign_ensured (topic_name : string)
    (f : TopicMapping → TopicMapping) (tbl : table) :
  map_assign topic_name f
    (match tbl !! topic_name with
     | None => <[topic_name := TopicMapping_default]> tbl
     | Some _ => tbl
     end)
  = <[topic_name := f (entry_or_default tbl topic_name)]> tbl.
Proof.
  unfold entry_or_default.
  destruct (tbl !! topic_name) as [tm|] eqn:Htm; cbn.
  - unfold map_assign, map_index. rewrite Htm.
    apply map_eq. intros k. rewrite lookup_alter, lookup_insert.
    repeat case_decide; subst; try done. by rewrite Htm.
  - apply map_assign_insert.
Qed.

(** X11: a parameter named for a field of a topic ends up in that field of
    the entry of that topic, the entry being created when the topic is new
    and its other fields left as they are: the serial mapping is stored cut
    to 8 bits, the type as it is, and the two direction strings as the two
    directions. *)
Theorem static_parameter_assigns_field (store : parameters)
    (topic_name : string) (tbl : table) :
  count_char dot topic_name = O →
  (∀ z, get_parameter store (topic_parameter topic_name "serial_mapping")
        = Some (PInteger z) →
        parse_parameter store (topic_parameter topic_name "serial_mapping") tbl
        = Return (<[topic_name := set_serial_mapping (z `mod` 256)
                                    (entry_or_default tbl topic_name)]> tbl))
  ∧ (∀ ty, get_parameter store (topic_parameter topic_name "type")
           = Some (PString ty) →
           parse_parameter store (topic_parameter topic_name "type") tbl
           = Return (<[topic_name := set_type ty
                                       (entry_or_default tbl topic_name)]> tbl))
  ∧ (get_parameter store (topic_parameter topic_name "direction")
     = Some (PString "SerialToROS2") →
     parse_parameter store (topic_parameter topic_name "direction") tbl
     = Return (<[topic_name := set_direction SERIAL_TO_ROS2
                                 (entry_or_default tbl topic_name)]> tbl))
  ∧ (get_parameter store (topic_parameter topic_name "direction")
     = Some (PString "ROS2ToSerial") →
     parse_parameter store (topic_parameter topic_name "direction") tbl
     = Return (<[topic_name := set_direction ROS2_TO_SERIAL
                                 (entry_or_default tbl topic_name)]> tbl)).
Proof.
  intros Ht. repeat split.
  - intros z Hget.
    rewrite parse_parameter_topic_parameter by done.
    unfold assign_topic_parameter, get_declared_parameter. rewrite Hget. cbn.
    repeat (case_bool_decide; try done).
    by rewrite map_assign_ensured.
  - intros ty Hget.
    rewrite parse_parameter_topic_parameter by done.
    unfold assign_topic_parameter, get_declared_parameter. rewrite Hget. cbn.
    repeat (case_bool_decide; try done).
    by rewrite map_assign_ensured.
  - intros Hget.
    rewrite parse_parameter_topic_parameter by done.
    unfold assign_topic_parameter, get_declared_parameter. rewrite Hget. cbn.
    repeat (case_bool_decide; try done).
    by rewrite map_assign_ensured.
  - intros Hget.
    rewrite parse_parameter_topic_parameter by done.
    unfold assign_topic_parameter, get_declared_parameter. rewrite Hget. cbn.
    repeat (case_bool_decide; try done).
    by rewrite map_assign_ensured.
Qed.

(** X12: what the parser refuses under a topic: a field that is none of
    [serial_mapping], [type] and [direction] (an empty field name included),
    a value of the wrong type, and a direction that is neither of the two
    strings.  Each is an exception, whatever the table holds by then. *)
Theorem static_parameter_errors (store : parameters)
    (topic_name param_name : string) (value : ParameterValue) (tbl : table) :
  count_char dot topic_name = O →
  count_char dot param_name = O →
  get_parameter store (topic_parameter topic_name param_name) = Some value →
  (param_name ∉ ["serial_mapping"; "type"; "direction"] →
   parse_parameter store (topic_parameter topic_name param_name) tbl
   = Throw InvalidParameterName)
  ∧ (param_name = "serial_mapping" → (∀ z, value ≠ PInteger z) →
     parse_parameter store (topic_parameter topic_name param_name) tbl
     = Throw ParameterTypeMismatch)
  ∧ (param_name = "type" ∨ param_name = "direction" →
     (∀ s, value ≠ PString s) →
     parse_parameter store (topic_parameter topic_name param_name) tbl
     = Throw ParameterTypeMismatch)
  ∧ (∀ dirstring,
       param_name = "direction" → value = PString dirstring →
       dirstring ≠ "SerialToROS2" → dirstring ≠ "ROS2ToSerial" →
       parse_parameter store (topic_parameter topic_name param_name) tbl
       = Throw InvalidDirectionString).
Proof.
  intros Ht Hp Hget.
  rewrite parse_parameter_topic_parameter by done.
  unfold assign_topic_parameter, get_declared_parameter. rewrite Hget.
  repeat split.
  - intros Hnot.
    rewrite !bool_decide_eq_false_2; [done|..]; intros ->; apply Hnot;
      set_solver.
  - intros -> Hty. cbn. destruct value; try done. by destruct (Hty z).
  - intros [-> | ->] Hty; cbn; destruct value; try done; by destruct (Hty s).
  - intros dirstring -> -> Hd1 Hd2. cbn.
    repeat (case_bool_decide; try done).
Qed.

(** X13: parameters outside the layout are passed over: a name that does not
    have exactly two dots, or whose part before the first dot is not
    [topics], leaves the table as it is and raises nothing, whatever its
    value. *)
Theorem foreign_parameters_ignored (store : parameters) (name : string)
    (tbl : table) :
  count_char dot name ≠ 2%nat
  ∨ (∃ first rest, name = first +:+ "." +:+ rest
                   ∧ count_char dot first = O ∧ first ≠ "topics") →
  parse_parameter store name tbl = Return tbl.
Proof.
  intros Hname. unfold parse_parameter.
  destruct (Nat.eqb_spec (count_char dot name) 2) as [Hcount|Hcount]; [|done].
  destruct Hname as [Hne|(first & rest & -> & Hfirst & Hne)]; [done|].
  cbn [negb].
  change ("." +:+ rest) with (String dot rest).
  rewrite (find_first_of_skip dot first rest Hfirst).
  unfold substr. rewrite substring_prefix.
  by rewrite bool_decide_eq_false_2.
Qed.

Lemma get_parameter_listed (store : parameters) (name : string) :
  name ∈ store.*1 → is_Some (get_parameter store name).
Proof.
  induction store as [|[n v] store IH]; cbn; [by intros ?%elem_of_nil|].
  intros [->|Hin]%elem_of_cons; case_decide; try done; by apply IH.
Qed.

(** The exceptions of the loop body, for a name that is in the store: the
    two exceptions about the position of a dot are not among them. *)
Lemma parse_parameter_outcomes (store : parameters) (name : string)
    (tbl : table) :
  name ∈ store.*1 →
  (∃ tbl', parse_parameter store name tbl = Return tbl')
  ∨ (∃ e, parse_parameter store name tbl = Throw e
          ∧ e ∈ [InvalidDirectionString; InvalidParameterName;
                 ParameterTypeMismatch]).
Proof.
  intros [value Hget]%get_parameter_listed.
  unfold parse_parameter.
  destruct (Nat.eqb_spec (count_char dot name) 2) as [Hcount|Hcount];
    [|left; by eexists].
  cbn [negb].
  destruct (find_first_of dot name 0) as [p1|] eqn:Hp1.
  2: { apply find_first_of_None_count in Hp1. lia. }
  destruct (bool_decide (substr name 0 p1 = "topics")); [|left; by eexists].
  cbn [negb].
  destruct (p1 =? String.length name)%nat; [left; by eexists|].
  destruct (find_first_of dot name (p1 + 1)) as [p2|] eqn:Hp2.
  2: { rewrite Nat.add_1_r in Hp2.
       pose proof (find_first_of_once _ _ _ Hp1 Hp2). lia. }
  destruct (p2 =? String.length name)%nat; [left; by eexists|].
  unfold get_declared_parameter. rewrite Hget.
  repeat case_bool_decide; cbn;
    destruct value; cbn; repeat case_bool_decide;
    first [ left; by eexists | right; eexists; split; [done|set_solver] ].
Qed.

Lemma parse_names_outcomes (store : parameters) (names : list string)
    (tbl : table) :
  names ⊆ store.*1 →
  (∃ tbl', parse_names store names tbl = Return tbl')
  ∨ (∃ e, parse_names store names tbl = Throw e
          ∧ e ∈ [InvalidDirectionString; InvalidParameterName;
                 ParameterTypeMismatch]).
Proof.
  revert tbl. induction names as [|name names IH]; intros tbl Hsub.
  - left. by eexists.
  - cbn.
    destruct (parse_parameter_outcomes store name tbl)
      as [[tbl' ->]|(e & -> & He)]; [set_solver| |].
    + cbn. apply IH. set_solver.
    + right. by exists e.
Qed.

(** X14: the static parser always comes to an end, with a table or with one
    of three exceptions: a direction that is not one of the two strings, a
    field name it does not know, or a value of the wrong type.  The two
    exceptions about the position of a dot are never thrown, and every name
    it looks up is a name of the store. *)
Theorem static_parser_outcomes (store : parameters) :
  (∃ tbl, parse_node_parameters_for_topics store = Return tbl)
  ∨ (∃ e, parse_node_parameters_for_topics store = Throw e
          ∧ e ∈ [InvalidDirectionString; InvalidParameterName;
                 ParameterTypeMismatch]).
Proof. by apply parse_names_outcomes. Qed.

End StaticParser.

Section StaticTableContents.

Lemma find_first_of_split (c : ascii) (s : string) (i : nat) :
  find_first_of c s 0 = Some i →
  ∃ s1 s2, s = s1 +:+ String c s2
           ∧ String.length s1 = i ∧ count_char c s1 = O.
Proof.
  revert i. induction s as [|a s IH]; intros i; simpl; [done|].
  destruct (decide (a = c)) as [->|Hne].
  - intros [= <-]. by exists "", s.
  - destruct (find_first_of c s 0) as [i'|]; [|done].
    intros [= <-]. destruct (IH i' eq_refl) as (s1 & s2 & -> & <- & Hc).
    exists (String a s1), s2. rewrite string_app_cons. simpl.
    by rewrite decide_False, Hc.
Qed.

Lemma dotted_inj (c : ascii) (s1 s2 s1' s2' : string) :
  count_char c s1 = O → count_char c s1' = O →
  s1 +:+ String c s2 = s1' +:+ String c s2' →
  s1 = s1' ∧ s2 = s2'.
Proof.
  revert s1'. induction s1 as [|a s1 IH]; intros [|a' s1'];
    rewrite ?string_app_nil, ?string_app_cons; simpl.
  - intros _ _ [= ->]. done.
  - intros _ Ha' [= <- _]. by rewrite decide_True in Ha'.
  - intros Ha _ [= -> _]. by rewrite decide_True in Ha.
  - intros Ha Ha' [= -> Heq].
    destruct (decide (a' = c)); [done|].
    destruct (IH s1' Ha Ha' Heq) as [-> ->]. done.
Qed.

Lemma topic_parameter_inj (t p t' p' : string) :
  count_char dot t = O → count_char dot t' = O →
  topic_parameter t p = topic_parameter t' p' →
  t = t' ∧ p = p'.
Proof.
  intros Ht Ht'. unfold topic_parameter.
  rewrite !string_app_cons, !string_app_nil. intros [= Heq].
  by apply (dotted_inj dot).
Qed.

Lemma topic_parameter_count (t p : string) :
  count_char dot (topic_parameter t p)
  = (2 + count_char dot t + count_char dot p)%nat.
Proof.
  unfold topic_parameter. rewrite !count_char_app.
  change (count_char dot "topics.") with 1%nat.
  change (count_char dot ".") with 1%nat. lia.
Qed.

Lemma count_char_dotted (s : string) :
  count_char dot (String dot s) = S (count_char dot s).
Proof. reflexivity. Qed.

(** A name either is the name of a field of a topic, or is passed over by
    the loop body. *)
Lemma name_classification (name : string) :
  (∃ t p, name = topic_parameter t p
          ∧ count_char dot t = O ∧ count_char dot p = O)
  ∨ ((∀ store tbl, parse_parameter store name tbl = Return tbl)
     ∧ ∀ t p, count_char dot t = O → count_char dot p = O →
              name ≠ topic_parameter t p).
Proof.
  destruct (decide (count_char dot name = 2%nat)) as [Hcount|Hcount].
  2: { right. split.
       - intros store tbl. apply foreign_parameters_ignored. by left.
       - intros t p Ht Hp ->. rewrite topic_parameter_count in Hcount. lia. }
  destruct (find_first_of dot name 0) as [p1|] eqn:Hp1.
  2: { apply find_first_of_None_count in Hp1. lia. }
  destruct (find_first_of_split _ _ _ Hp1) as (first & rest & -> & <- & Hfirst).
  destruct (decide (first = "topics")) as [->|Hne].
  2: { right. split.
       - intros store tbl. apply foreign_parameters_ignored. right.
         by exists first, rest.
       - intros t p Ht Hp Heq. apply Hne.
         unfold topic_parameter in Heq.
         change ("topics." +:+ t +:+ "." +:+ p)
           with ("topics" +:+ String dot (t +:+ "." +:+ p)) in Heq.
         by apply (dotted_inj dot) in Heq as [-> _]. }
  left.
  rewrite count_char_app, count_char_dotted in Hcount.
  change (count_char dot "topics") with O in Hcount.
  destruct (find_first_of dot rest 0) as [i|] eqn:Hrest.
  2: { apply find_first_of_None_count in Hrest. lia. }
  destruct (find_first_of_split _ _ _ Hrest) as (t & p & -> & _ & Ht).
  rewrite count_char_app, count_char_dotted in Hcount.
  exists t, p. repeat split; [done|lia].
Qed.

Lemma topic_fields_dot_free (field : string) :
  field ∈ topic_fields → count_char dot field = O.
Proof.
  unfold topic_fields. rewrite !elem_of_cons, elem_of_nil.
  intros [->|[->|[->|[]]]]; reflexivity.
Qed.

Lemma get_parameter_unlisted (store : parameters) (name : string) :
  name ∉ store.*1 → get_parameter store name = None.
Proof.
  induction store as [|[n v] store IH]; cbn; [done|].
  intros Hnot. apply not_elem_of_cons in Hnot as [Hne Hnot].
  rewrite decide_False by done. by apply IH.
Qed.

(** Two lists of names with the same field parameters of a topic give it the
    same partial entry. *)
Lemma partial_entry_ext (store : parameters) (seen seen' : list string)
    (t : string) :
  (∀ field, field ∈ topic_fields →
            topic_parameter t field ∈ seen ↔ topic_parameter t field ∈ seen') →
  partial_entry store seen t = partial_entry store seen' t.
Proof.
  intros Hext.
  assert (∀ field, field ∈ topic_fields →
                   bool_decide (topic_parameter t field ∈ seen)
                   = bool_decide (topic_parameter t field ∈ seen')) as Hb.
  { intros field Hfield. by apply bool_decide_ext, Hext. }
  unfold partial_entry.
  rewrite (Hb "serial_mapping"), (Hb "type"), (Hb "direction");
    [done|..]; unfold topic_fields; repeat constructor.
Qed.

Lemma partial_entry_none (store : parameters) (seen : list string) (t : string) :
  (∀ field, field ∈ topic_fields → topic_parameter t field ∉ seen) →
  partial_entry store seen t = TopicMapping_default.
Proof.
  intros Hnone. unfold partial_entry.
  rewrite !bool_decide_eq_false_2; [done|..]; apply Hnone; set_solver.
Qed.

Lemma partial_entry_all (store : parameters) (seen : list string) (t : string) :
  (∀ name, name ∈ seen ↔ name ∈ store.*1) →
  partial_entry store seen t = static_entry store t.
Proof.
  intros Hall. unfold partial_entry, static_entry. cbn.
  f_equal; case_bool_decide as Hin; try done;
    rewrite Hall in Hin; by rewrite (get_parameter_unlisted _ _ Hin).
Qed.

(** The entry the loop body finds for a topic is its partial entry. *)
Lemma entry_or_default_partial (store : parameters) (seen : list string)
    (tbl : table) (t : string) :
  parsed_so_far store seen tbl →
  count_char dot t = O →
  entry_or_default tbl t = partial_entry store seen t.
Proof.
  intros Hinv Ht. destruct (Hinv t) as [Hdom Hentry].
  unfold entry_or_default.
  destruct (tbl !! t) as [tm|] eqn:Htm; cbn.
  - by apply Hentry.
  - symmetry. apply partial_entry_none. intros field Hfield Hin.
    assert (is_Some (None : option TopicMapping)) as [? ?]; [|done].
    apply Hdom. split; [done|]. by exists field.
Qed.

Lemma parsed_so_far_ignored (store : parameters) (seen : list string)
    (name : string) (tbl : table) :
  (∀ t p, count_char dot t = O → count_char dot p = O →
          name ≠ topic_parameter t p) →
  parsed_so_far store seen tbl →
  parsed_so_far store (name :: seen) tbl.
Proof.
  intros Hnot Hinv t. destruct (Hinv t) as [Hdom Hentry].
  assert (count_char dot t = O →
          ∀ field, field ∈ topic_fields →
                   topic_parameter t field ∈ name :: seen
                   ↔ topic_parameter t field ∈ seen) as Hmem.
  { intros Ht field Hfield. rewrite elem_of_cons. split; [|by right].
    intros [Heq|Hin]; [|done].
    by destruct (Hnot t field Ht (topic_fields_dot_free _ Hfield)). }
  split.
  - rewrite Hdom. split; intros (Ht & field & Hfield & Hin);
      (split; [done|]); exists field; (split; [done|]); by apply (Hmem Ht).
  - intros tm Htm. rewrite (Hentry tm Htm).
    apply partial_entry_ext. intros field Hfield. symmetry. apply Hmem; [|done].
    apply Hdom. by eexists.
Qed.

(** An assignment to a field of a topic takes the table for [seen] to the
    table for the name of that field and [seen]. *)
Lemma parsed_so_far_assigned (store : parameters) (seen : list string)
    (t0 field0 : string) (f : TopicMapping → TopicMapping) (tbl : table) :
  count_char dot t0 = O →
  field0 ∈ topic_fields →
  f (partial_entry store seen t0)
  = partial_entry store (topic_parameter t0 field0 :: seen) t0 →
  parsed_so_far store seen tbl →
  parsed_so_far store (topic_parameter t0 field0 :: seen)
    (<[t0 := f (entry_or_default tbl t0)]> tbl).
Proof.
  intros Ht0 Hfield0 Hf Hinv t. destruct (Hinv t) as [Hdom Hentry].
  destruct (decide (t = t0)) as [->|Hne].
  - rewrite lookup_insert_eq. split.
    + split; [|by eexists]. intros _. split; [done|].
      exists field0. split; [done|]. by apply elem_of_cons; left.
    + intros tm [= <-].
      by rewrite (entry_or_default_partial store seen tbl t0 Hinv Ht0).
  - rewrite lookup_insert_ne by done.
    assert (count_char dot t = O →
            ∀ field, topic_parameter t field ∈ topic_parameter t0 field0 :: seen
                     ↔ topic_parameter t field ∈ seen) as Hmem.
    { intros Ht field. rewrite elem_of_cons. split; [|by right].
      intros [Heq|Hin]; [|done].
      by apply topic_parameter_inj in Heq as [-> _]. }
    split.
    + rewrite Hdom. split; intros (Ht & field & Hfield & Hin);
        (split; [done|]); exists field; (split; [done|]); by apply (Hmem Ht).
    + intros tm Htm. rewrite (Hentry tm Htm).
      apply partial_entry_ext. intros field _. symmetry. apply Hmem.
      apply Hdom. by eexists.
Qed.

Lemma other_field_seen (t0 field field0 : string) (seen : list string) :
  count_char dot t0 = O →
  field ≠ field0 →
  bool_decide (topic_parameter t0 field ∈ topic_parameter t0 field0 :: seen)
  = bool_decide (topic_parameter t0 field ∈ seen).
Proof.
  intros Ht0 Hne. apply bool_decide_ext. rewrite elem_of_cons.
  split; [|by right]. intros [Heq|Hin]; [|done].
  by apply topic_parameter_inj in Heq as [_ ->].
Qed.

Lemma same_field_seen (name : string) (seen : list string) :
  bool_decide (name ∈ name :: seen) = true.
Proof. apply bool_decide_eq_true_2, elem_of_cons. by left. Qed.

(** One turn of the loop keeps the table in step with the names gone
    through. *)
Lemma parse_parameter_parsed (store : parameters) (seen : list string)
    (name : string) (tbl tbl' : table) :
  parsed_so_far store seen tbl →
  parse_parameter store name tbl = Return tbl' →
  parsed_so_far store (name :: seen) tbl'.
Proof.
  intros Hinv.
  destruct (name_classification name)
    as [(t0 & p0 & -> & Ht0 & Hp0)|[Hign Hnot]].
  2: { rewrite Hign. intros [= <-]. by apply parsed_so_far_ignored. }
  rewrite parse_parameter_topic_parameter by done.
  unfold assign_topic_parameter, get_declared_parameter.
  destruct (get_parameter store (topic_parameter t0 p0)) as [value|] eqn:Hget.
  2: { by repeat case_bool_decide. }
  case_bool_decide as Hsm; [subst p0|case_bool_decide as Hty;
    [subst p0|case_bool_decide as Hdir; [subst p0|done]]].
  - destruct value as [|z| |]; cbn; try done. intros [= <-].
    rewrite map_assign_ensured.
    apply parsed_so_far_assigned; [done|unfold topic_fields; repeat constructor| |done].
    unfold partial_entry, set_serial_mapping. cbn.
    rewrite same_field_seen, !other_field_seen by done.
    by rewrite Hget.
  - destruct value as [| |ty|]; cbn; try done. intros [= <-].
    rewrite map_assign_ensured.
    apply parsed_so_far_assigned; [done|unfold topic_fields; repeat constructor| |done].
    unfold partial_entry, set_type. cbn.
    rewrite same_field_seen, !other_field_seen by done.
    by rewrite Hget.
  - destruct value as [| |dirstring|]; cbn; try done.
    case_bool_decide as Hd1; [|case_bool_decide as Hd2; [|done]];
      intros [= <-]; rewrite map_assign_ensured;
      (apply parsed_so_far_assigned;
       [done|unfold topic_fields; repeat constructor| |done]);
      unfold partial_entry, set_direction; cbn;
      rewrite same_field_seen, !other_field_seen by done;
      rewrite Hget; repeat case_bool_decide; done.
Qed.

Lemma parse_names_parsed (store : parameters) (names seen : list string)
    (tbl tbl' : table) :
  parsed_so_far store seen tbl →
  parse_names store names tbl = Return tbl' →
  parsed_so_far store (reverse names ++ seen) tbl'.
Proof.
  revert seen tbl. induction names as [|name names IH]; intros seen tbl Hinv.
  - by intros [= <-].
  - intros Hparse. cbn in Hparse.
    destruct (parse_parameter store name tbl) as [tbl1| | |] eqn:Hone;
      try done.
    cbn in Hparse. rewrite reverse_cons, <- app_assoc.
    apply (IH (name :: seen) tbl1); [|done].
    by eapply parse_parameter_parsed.
Qed.

Lemma parsed_so_far_empty (store : parameters) : parsed_so_far store [] ∅.
Proof.
  intros t. split; [|by rewrite lookup_empty].
  rewrite lookup_empty. split; [by intros [? ?]|].
  intros (_ & field & _ & Hin). by apply elem_of_nil in Hin.
Qed.

(** X15: the static table is a function of the parameters, not of the order
    they are gone through in.  When the parser returns, the table has an
    entry for exactly the topics that have at least one of the three field
    parameters, and each entry holds, field by field, what the parameter of
    that field says; a field without a parameter keeps the value of a
    default-constructed entry: serial id 0, no type, direction [UNKNOWN]. *)
Theorem static_table_contents (store : parameters) (tbl : table)
    (topic_name : string) :
  parse_node_parameters_for_topics store = Return tbl →
  (is_Some (tbl !! topic_name) ↔
   count_char dot topic_name = O
   ∧ ∃ field, field ∈ topic_fields
              ∧ topic_parameter topic_name field ∈ store.*1)
  ∧ (∀ tm, tbl !! topic_name = Some tm → tm = static_entry store topic_name).
Proof.
  intros Hparse.
  pose proof (parse_names_parsed store _ [] ∅ tbl
                (parsed_so_far_empty store) Hparse) as Hinv.
  rewrite app_nil_r in Hinv.
  destruct (Hinv topic_name) as [Hdom Hentry]. split.
  - rewrite Hdom. by setoid_rewrite elem_of_reverse.
  - intros tm Htm. rewrite (Hentry tm Htm).
    apply partial_entry_all. intros name. apply elem_of_reverse.
Qed.

End StaticTableContents.

Section StaticDefaults.

(** X16: the static parser does not ask for a topic to be complete.  A
    topic that has some field parameter but no [direction] parameter is in
    the table with direction [UNKNOWN]; one without [serial_mapping] has
    serial id 0, and one without [type] has the empty type name. *)
Theorem incomplete_topic_keeps_defaults (store : parameters) (tbl : table)
    (topic_name : string) (tm : TopicMapping) :
  parse_node_parameters_for_topics store = Return tbl →
  tbl !! topic_name = Some tm →
  (topic_parameter topic_name "direction" ∉ store.*1 → direction tm = UNKNOWN)
  ∧ (topic_parameter topic_name "serial_mapping" ∉ store.*1 →
     serial_mapping tm = 0)
  ∧ (topic_parameter topic_name "type" ∉ store.*1 → type tm = "").
Proof.
  intros Hparse Htm.
  destruct (static_table_contents store tbl topic_name Hparse) as [_ Hentry].
  rewrite (Hentry tm Htm). unfold static_entry. cbn.
  repeat split; intros Hnot; by rewrite (get_parameter_unlisted _ _ Hnot).
Qed.

End StaticDefaults.

(** * Properties of [main] *)

Section MainProperties.

Context `{TypeSupport}.

Lemma spin_loop_passes (pre rest : list (bool * bool)) :
  forallb (λ test, test.1 && test.2) pre = true →
  spin_loop (pre ++ rest)
  = (mjoin (replicate (length pre) [MainSpinSome; MainSleep])
       ++ (spin_loop rest).1,
     (spin_loop rest).2).
Proof.
  induction pre as [|[ok running] pre IH]; intros Hpre.
  - cbn. by destruct (spin_loop rest).
  - cbn in Hpre. apply andb_true_iff in Hpre as [Hpass Hpre].
    cbn in Hpass. cbn. rewrite Hpass, (IH Hpre). reflexivity.
Qed.

(** X17: [main] returns 1 exactly when the constructor of the bridge throws,
    whatever the exception; it has then neither spun nor called
    [rclcpp::shutdown], and its calls are those made up to the exception. *)
Theorem main_exit_code_1 (env : MainEnv) :
  ((main env).2 = Exit 1 ↔
   ∃ e, outcome (ROS2SerialBridge_new (startup env)) = Throw e)
  ∧ ((main env).2 = Exit 1 →
     (main env).1
     = [MainRclInit; MainSignal]
         ++ (MainBridge <$> events (ROS2SerialBridge_new (startup env)))).
Proof.
  unfold main.
  destruct (outcome (ROS2SerialBridge_new (startup env))) as [node|e| |] eqn:Hout.
  - destruct (get_parameter_int (node_parameters (startup env)) "write_sleep_ms")
      as [[ws|]| | |]; cbn; try (split; [split; [done|by intros [? ?]]|done]).
    destruct (spin_loop (loop_tests env)) as [spins [|]]; cbn;
      (split; [split; [done|by intros [? ?]]|done]).
  - cbn. split; [|done]. split; [by eexists|done].
  - cbn. split; [|done]. split; [done|by intros [? ?]].
  - cbn. split; [|done]. split; [done|by intros [? ?]].
Qed.

(** X18: once the bridge is constructed and [write_sleep_ms] is read, [main]
    spins and sleeps once for each test of the loop that passes, stops at the
    first test at which [rclcpp::ok()] is false or [running] is cleared,
    calls [rclcpp::shutdown] once and returns 0; the bridge is destroyed on
    that return, so that the three calls of its destructor, the close of the
    transporter last, come after the shutdown. *)
Theorem main_spins_until_stopped (env : MainEnv) (node : ROS2SerialBridge)
    (write_sleep_ms : Z) (pre : list (bool * bool)) (ok running : bool)
    (rest : list (bool * bool)) :
  outcome (ROS2SerialBridge_new (startup env)) = Return node →
  get_parameter (node_parameters (startup env)) "write_sleep_ms"
  = Some (PInteger write_sleep_ms) →
  loop_tests env = pre ++ (ok, running) :: rest →
  forallb (λ test, test.1 && test.2) pre = true →
  ok && running = false →
  main env
  = ([MainRclInit; MainSignal]
       ++ (MainBridge <$> events (ROS2SerialBridge_new (startup env)))
       ++ mjoin (replicate (length pre) [MainSpinSome; MainSleep])
       ++ [MainShutdown;
           MainBridge EvSetValue; MainBridge EvJoin; MainBridge EvClose],
     Exit 0).
Proof.
  intros Hnode Hsleep Htests Hpre Hstop.
  unfold main, get_parameter_int. rewrite Hnode, Hsleep, Htests.
  rewrite (spin_loop_passes _ _ Hpre). cbn. rewrite Hstop. cbn.
  by rewrite app_nil_r.
Qed.

End MainProperties.

Section StaticOrder.

Lemma get_parameter_is_listed (store : parameters) (name : string) :
  is_Some (get_parameter store name) → name ∈ store.*1.
Proof.
  induction store as [|[n v] store IH]; cbn; [by intros [? ?]|].
  case_decide as Hn; [subst; intros _; apply elem_of_cons; by left|].
  intros Hsome. apply elem_of_cons. right. by apply IH.
Qed.

(** The loop body looks at the store through the value of its name only. *)
Lemma parse_parameter_store_ext (store store' : parameters) (name : string)
    (tbl : table) :
  get_parameter store name = get_parameter store' name →
  parse_parameter store name tbl = parse_parameter store' name tbl.
Proof.
  intros Heq. unfold parse_parameter, get_declared_parameter. by rewrite Heq.
Qed.

(** Whether the loop body returns does not depend on the table. *)
Lemma parse_parameter_table_indep (store : parameters) (name : string)
    (tbl1 tbl2 : table) :
  (∃ tbl', parse_parameter store name tbl1 = Return tbl') →
  ∃ tbl', parse_parameter store name tbl2 = Return tbl'.
Proof.
  destruct (name_classification name)
    as [(t0 & p0 & -> & Ht0 & Hp0)|[Hign _]].
  2: { intros _. rewrite Hign. by eexists. }
  rewrite !parse_parameter_topic_parameter by done.
  unfold assign_topic_parameter, get_declared_parameter.
  destruct (get_parameter store (topic_parameter t0 p0)) as [value|].
  - repeat case_bool_decide; destruct value; cbn; repeat case_bool_decide;
      intros [tbl' Htbl']; try done; by eexists.
  - repeat case_bool_decide; cbn; by intros [? ?].
Qed.

Lemma parse_names_returns (store : parameters) (names : list string)
    (tbl : table) :
  (∃ tbl', parse_names store names tbl = Return tbl') ↔
  Forall (λ name, ∃ tbl', parse_parameter store name ∅ = Return tbl') names.
Proof.
  revert tbl. induction names as [|name names IH]; intros tbl.
  - split; [constructor|by eexists].
  - rewrite Forall_cons. cbn. split.
    + intros [tbl' Hparse].
      destruct (parse_parameter store name tbl) as [tbl1| | |] eqn:Hone;
        try done.
      split.
      * apply (parse_parameter_table_indep store name tbl). by eexists.
      * apply (IH tbl1). by eexists.
    + intros [Hone Hrest].
      destruct (parse_parameter_table_indep store name ∅ tbl Hone)
        as [tbl1 ->].
      cbn. by apply IH.
Qed.

Lemma parse_names_store_ext (store store' : parameters) (names : list string)
    (tbl : table) :
  (∀ name, get_parameter store name = get_parameter store' name) →
  parse_names store names tbl = parse_names store' names tbl.
Proof.
  intros Heq. revert tbl. induction names as [|name names IH]; intros tbl;
    [done|].
  cbn. rewrite (parse_parameter_store_ext store store') by done.
  destruct (parse_parameter store' name tbl); cbn; [apply IH|done..].
Qed.

(** Two tables in step with the same names are the same table. *)
Lemma parsed_so_far_unique (store : parameters) (seen seen' : list string)
    (tbl tbl' : table) :
  (∀ name, name ∈ seen ↔ name ∈ seen') →
  parsed_so_far store seen tbl →
  parsed_so_far store seen' tbl' →
  tbl = tbl'.
Proof.
  intros Hseen Hinv Hinv'. apply map_eq. intros t.
  destruct (Hinv t) as [Hdom Hentry], (Hinv' t) as [Hdom' Hentry'].
  assert (is_Some (tbl !! t) ↔ is_Some (tbl' !! t)) as Hsame.
  { rewrite Hdom, Hdom'. by setoid_rewrite Hseen. }
  destruct (tbl !! t) as [tm|] eqn:Htm, (tbl' !! t) as [tm'|] eqn:Htm'.
  - rewrite (Hentry tm eq_refl), (Hentry' tm' eq_refl).
    f_equal. apply partial_entry_ext. intros field _. apply Hseen.
  - by destruct (proj1 Hsame (mk_is_Some _ _ eq_refl)).
  - by destruct (proj2 Hsame (mk_is_Some _ _ eq_refl)).
  - done.
Qed.

Lemma get_parameter_perm (store store' : parameters) (name : string) :
  NoDup store.*1 → store ≡ₚ store' →
  get_parameter store name = get_parameter store' name.
Proof.
  intros Hnodup Hperm. induction Hperm as [|[n v] l l' Hperm IH
                                           |[n1 v1] [n2 v2] l|l l' l'' H1 IH1 H2 IH2].
  - done.
  - cbn in *. apply NoDup_cons in Hnodup as [_ Hnodup].
    case_decide; [done|]. by apply IH.
  - cbn in *. apply NoDup_cons in Hnodup as [Hne _].
    repeat case_decide; subst; try done.
    destruct Hne. apply elem_of_cons. by left.
  - rewrite IH1 by done. apply IH2.
    assert (l.*1 ≡ₚ l'.*1) as Hp by by apply fmap_Permutation.
    by rewrite <- Hp.
Qed.

(** X19: the static table does not depend on the order in which the
    parameters are listed: for a store without a repeated name, listing the
    same parameters in another order changes neither whether the parser
    returns nor the table it returns. *)
Theorem static_table_order_independent (store store' : parameters)
    (tbl : table) :
  NoDup store.*1 →
  store ≡ₚ store' →
  parse_node_parameters_for_topics store = Return tbl →
  parse_node_parameters_for_topics store' = Return tbl.
Proof.
  intros Hnodup Hperm Hparse.
  assert (∀ name, get_parameter store name = get_parameter store' name) as Hget.
  { intros name. by apply get_parameter_perm. }
  assert (∀ name, name ∈ store'.*1 ↔ name ∈ store.*1) as Hnames.
  { intros name. by rewrite <- (fmap_Permutation fst _ _ Hperm). }
  unfold parse_node_parameters_for_topics in *.
  assert (∃ tbl', parse_names store store'.*1 ∅ = Return tbl') as [tbl' Hparse'].
  { apply parse_names_returns.
    assert (Forall (λ name, ∃ t, parse_parameter store name ∅ = Return t)
                   store.*1) as Hall.
    { apply (parse_names_returns store _ ∅). by eexists. }
    rewrite Forall_forall in Hall. apply Forall_forall.
    intros name Hin. apply Hall. by apply Hnames. }
  rewrite <- (parse_names_store_ext store store') by done.
  rewrite Hparse'. f_equal.
  pose proof (parse_names_parsed store _ [] ∅ tbl
                (parsed_so_far_empty store) Hparse) as Hinv.
  pose proof (parse_names_parsed store _ [] ∅ tbl'
                (parsed_so_far_empty store) Hparse') as Hinv'.
  refine (parsed_so_far_unique store _ _ _ _ _ Hinv' Hinv).
  intros name. rewrite !app_nil_r, !elem_of_reverse. apply Hnames.
Qed.

End StaticOrder.

Section NegotiationOutcomes.

Context `{TypeSupport}.

Lemma wait_loop_outcomes (wait_ms start d : Z) (script : list Poll) :
  (∃ got, outcome (wait_loop wait_ms start d script) = Return got)
  ∨ outcome (wait_loop wait_ms start d script)
    = Throw NotEnoughMemoryForDeserialization
  ∨ outcome (wait_loop wait_ms start d script) = Starved.
Proof.
  revert d. induction script as [|p script IH]; intros d; cbn.
  - by right; right.
  - destruct (is_response (poll_read p)).
    + destruct (cdr_deserialize_SerialMapping (rd_payload (poll_read p)));
        cbn; [left; by eexists|by right; left].
    + destruct (next_diff_ms wait_ms start d p <? wait_ms);
        [|left; by eexists].
      destruct (IH (next_diff_ms wait_ms start d p)) as [[got Hgot]|[Hthrow|Hst]];
        destruct (wait_loop wait_ms start (next_diff_ms wait_ms start d p) script)
          as [ev out]; cbn in *; subst; cbn; eauto.
Qed.

Lemma build_table_outcomes (msg : SerialMapping) :
  (∃ tbl, build_table msg = Return tbl)
  ∨ build_table msg = Throw SizesDiffer
  ∨ build_table msg = Throw UnknownDirectionCode.
Proof.
  unfold build_table. destruct (sizes_differ msg) eqn:Hsizes; [by right; left|].
  destruct (build_loop_total msg (length (topic_names msg)) 0 ∅ Hsizes)
    as [Hret Hthrow]; [lia|].
  destruct (Forall_Exists_dec known_code (λ code, ¬ known_code code))
    with (l := directions msg) as [Hall|Hex].
  - intros code. unfold known_code.
    destruct (decide (code = SERIALTOROS2)); [left; by left|].
    destruct (decide (code = ROS2TOSERIAL)); [left; by right|].
    right. by intros [?|?].
  - left. by apply Hret.
  - right; right. by apply Hthrow.
Qed.

(** X20: the negotiation never steps outside its four vectors: the test of
    the sizes comes before the first index, so that no run ends in an
    out-of-range access.  Its exceptions are five: the failed write, the
    response that does not deserialize, the missing response, the sizes that
    differ and the unknown direction code. *)
Theorem negotiation_outcomes (wait_ms : Z) (env : NegotiationEnv) :
  outcome (dynamically_get_serial_mapping wait_ms env) ≠ Undefined
  ∧ ∀ e, outcome (dynamically_get_serial_mapping wait_ms env) = Throw e →
         e ∈ [FailedToWriteDynamicMessage; NotEnoughMemoryForDeserialization;
              NoResponseToDynamicRequest; SizesDiffer; UnknownDirectionCode].
Proof.
  rewrite dynamically_get_serial_mapping_unfold.
  destruct (write_result env <? 0); cbn.
  { split; [done|]. intros e [= <-]. repeat constructor. }
  destruct (wait_loop_outcomes wait_ms (clock_start env) 0 (polls env))
    as [[[msg|] ->]|[-> | ->]].
  - destruct (build_table_outcomes msg) as [[tbl ->]|[-> | ->]];
      (split; [done|]); intros e [= <-]; repeat constructor.
  - split; [done|]. intros e [= <-]. repeat constructor.
  - split; [done|]. intros e [= <-]. repeat constructor.
  - split; [done|]. by intros e.
Qed.

End NegotiationOutcomes.

(** * The further theorems at the sample inputs *)

Module MoreWitnesses.

Import Samples MoreSamples.

Lemma first_response_is_taken_witness :
  outcome (dynamically_get_serial_mapping (H := sample_type_support) 100 env_late)
  = build_table (H := sample_type_support) msg_twice
  ∧ events (dynamically_get_serial_mapping (H := sample_type_support) 100 env_late)
    = [EvWrite 0 []; EvRead (read_response Byte.x02)].
Proof.
  refine (first_response_is_taken (H := sample_type_support) 100 env_late []
            {| poll_read := read_response Byte.x02; poll_now := 1500000000 |}
            [ {| poll_read := read_nothing; poll_now := 1600000000 |} ]
            msg_twice _ eq_refl eq_refl eq_refl eq_refl).
  vm_compute. discriminate.
Defined.

Lemma no_budget_polls_once_witness :
  events (dynamically_get_serial_mapping (H := sample_type_support) 0 env_silent)
  = [EvWrite 0 []; EvRead read_nothing]
  ∧ (is_response read_nothing = false →
     outcome (dynamically_get_serial_mapping (H := sample_type_support) 0
                env_silent)
     = Throw NoResponseToDynamicRequest).
Proof.
  refine (no_budget_polls_once (H := sample_type_support) env_silent
            {| poll_read := read_nothing; poll_now := 1050000000 |} _ _ eq_refl).
  vm_compute. discriminate.
Defined.

Lemma clock_step_back_ends_wait_witness :
  outcome (dynamically_get_serial_mapping (H := sample_type_support) 5000
             env_clock_set_back)
  = Throw NoResponseToDynamicRequest.
Proof.
  refine (proj1 (clock_step_back_ends_wait (H := sample_type_support) 5000
            env_clock_set_back
            [ {| poll_read := read_nothing; poll_now := 20010000000 |} ]
            {| poll_read := read_other_topic; poll_now := 10020000000 |}
            [ {| poll_read := read_response Byte.x02; poll_now := 10030000000 |} ]
            _ _ eq_refl eq_refl eq_refl _)).
  - lia.
  - vm_compute. discriminate.
  - vm_compute. split; discriminate.
Defined.

Lemma empty_response_gives_empty_table_witness :
  outcome (dynamically_get_serial_mapping (H := empty_type_support) 100
             (env_answering Byte.x00))
  = Return ∅.
Proof.
  refine (empty_response_gives_empty_table (H := empty_type_support) 100
            (env_answering Byte.x00) msg_empty _ eq_refl eq_refl eq_refl).
  vm_compute. discriminate.
Defined.

Lemma at_most_one_read_after_signal_witness :
  (reads_after_signal
     (sys_trace (run [OwnerTurn; ReaderTurn read_other_topic; ReaderTurn read_nothing;
                      ReaderTurn read_nothing]
                     (at_destruction AtRead [EvRead read_nothing]))) ≤ 1)%nat.
Proof.
  apply (at_most_one_read_after_signal AtRead [EvRead read_nothing]).
  reflexivity.
Defined.

Lemma reader_exits_only_on_signal_witness :
  reader (run [ReaderTurn read_error; ReaderTurn read_error; ReaderTurn read_error]
              (at_destruction AtRead []))
  ≠ ThreadExited.
Proof.
  apply (reader_exits_only_on_signal AtRead []).
  - discriminate.
  - reflexivity.
Defined.

Lemma nothing_after_close_witness :
  run [ReaderTurn read_other_topic; OwnerTurn]
      (run (finishing_schedule read_nothing) (at_destruction AtWaitFor []))
  = run (finishing_schedule read_nothing) (at_destruction AtWaitFor []).
Proof.
  apply (nothing_after_close AtWaitFor [] (finishing_schedule read_nothing)).
  - reflexivity.
  - reflexivity.
Defined.

Lemma dispatch_follows_its_read_witness :
  ∃ tr0 r, [EvRead read_error; EvRead read_other_topic] = tr0 ++ [EvRead r]
           ∧ 0 < rd_length r
           ∧ 9 = rd_topic_ID r
           ∧ [Byte.x68; Byte.x69] = take (Z.to_nat (rd_length r)) (rd_data r).
Proof.
  apply (dispatch_follows_its_read
           [ (read_error, timeout); (read_other_topic, timeout);
             (read_nothing, ready) ]
           [EvRead read_error; EvRead read_other_topic]
           [EvRead read_nothing] 9 [Byte.x68; Byte.x69]).
  reflexivity.
Defined.

Lemma static_parameter_assigns_field_witness :
  parse_parameter store_ordered (topic_parameter "odom" "serial_mapping") ∅
  = Return (<["odom" := set_serial_mapping (300 `mod` 256)
                          (entry_or_default ∅ "odom")]> ∅).
Proof.
  refine (proj1 (static_parameter_assigns_field store_ordered "odom" ∅ eq_refl)
                300 eq_refl).
Defined.

Lemma static_parameter_errors_witness :
  parse_parameter [("topics.odom.qos", PInteger 1)]
                  (topic_parameter "odom" "qos") ∅
  = Throw InvalidParameterName.
Proof.
  refine (proj1 (static_parameter_errors [("topics.odom.qos", PInteger 1)]
                   "odom" "qos" (PInteger 1) ∅ eq_refl eq_refl eq_refl) _).
  unfold topic_fields. rewrite !elem_of_cons, elem_of_nil.
  intros [Heq|[Heq|[Heq|[]]]]; discriminate Heq.
Defined.

Lemma foreign_parameters_ignored_witness :
  parse_parameter store_incomplete "use_sim_time" ∅ = Return ∅
  ∧ parse_parameter store_incomplete "robot.arm.type" ∅ = Return ∅.
Proof.
  split.
  - apply foreign_parameters_ignored. left. vm_compute. discriminate.
  - apply foreign_parameters_ignored. right.
    exists "robot", "arm.type". repeat split. discriminate.
Defined.

Lemma static_table_contents_witness :
  mkTopicMapping 0 "std_msgs/String" UNKNOWN
  = static_entry store_incomplete "chatter".
Proof.
  refine (proj2 (static_table_contents store_incomplete
                   (<["chatter" := mkTopicMapping 0 "std_msgs/String" UNKNOWN]> ∅)
                   "chatter" _) _ _).
  - vm_compute. reflexivity.
  - vm_compute. reflexivity.
Defined.

Lemma incomplete_topic_keeps_defaults_witness :
  direction (mkTopicMapping 0 "std_msgs/String" UNKNOWN) = UNKNOWN.
Proof.
  refine (proj1 (incomplete_topic_keeps_defaults store_incomplete
                   (<["chatter" := mkTopicMapping 0 "std_msgs/String" UNKNOWN]> ∅)
                   "chatter" (mkTopicMapping 0 "std_msgs/String" UNKNOWN) _ _) _).
  - vm_compute. reflexivity.
  - vm_compute. reflexivity.
  - intros Hin. unfold store_incomplete in Hin. cbn in Hin.
    rewrite !elem_of_cons, elem_of_nil in Hin.
    destruct Hin as [Heq|[Heq|[]]]; vm_compute in Heq; discriminate Heq.
Defined.

Lemma static_table_order_independent_witness :
  parse_node_parameters_for_topics store_reordered
  = Return (<["odom" := mkTopicMapping 44 "nav_msgs/Odometry" ROS2_TO_SERIAL]> ∅).
Proof.
  apply (static_table_order_independent store_ordered store_reordered).
  - apply (bool_decide_unpack (NoDup store_ordered.*1)). vm_compute. exact I.
  - apply perm_swap.
  - vm_compute. reflexivity.
Defined.

Lemma main_spins_until_stopped_witness :
  main (H := sample_type_support) main_static
  = ([MainRclInit; MainSignal; MainBridge EvInit;
      MainSpinSome; MainSleep; MainSpinSome; MainSleep; MainShutdown;
      MainBridge EvSetValue; MainBridge EvJoin; MainBridge EvClose],
     Exit 0).
Proof.
  refine (main_spins_until_stopped (H := sample_type_support) main_static
            {| topic_names_and_serialization :=
                 <["chatter" := mkTopicMapping 1 "std_msgs/String" SERIAL_TO_ROS2]> ∅ |}
            4 [(true, true); (true, true)] true false [(true, true)]
            _ eq_refl eq_refl eq_refl eq_refl).
  vm_compute. reflexivity.
Defined.

Lemma transporter_untouched_until_configured_witness :
  ROS2SerialBridge_new (H := sample_type_support)
    {| node_parameters := store_static 100; init_result := -1;
       negotiation := env_silent |}
  = mkTraced [EvInit] (Throw TransporterInitFailed).
Proof.
  refine (proj1 (proj1 (transporter_untouched_until_configured
                          (H := sample_type_support)
                          {| node_parameters := store_static 100;
                             init_result := -1; negotiation := env_silent |})
                       100 _) _).
  - unfold configured. repeat split; by eexists.
  - reflexivity.
Defined.


Lemma main_exit_code_1_witness :
  (main (H := sample_type_support) main_silent).2 = Exit 1.
Proof.
  apply (proj1 (main_exit_code_1 (H := sample_type_support) main_silent)).
  exists NoResponseToDynamicRequest. vm_compute. reflexivity.
Defined.

End MoreWitnesses.
